(** * Spherical k-means: [spkmeans.cpp]

    A shallow embedding of [txnScheme], [computeQuality], [cosineSimilarity],
    [computeConcept], [runSPKMeans], [displayResults], [processArgs] and
    the dispatch of [main], written once over an interface of scalar
    arithmetic.

    The arithmetic of the program is [ieee_arith]: IEEE-754 binary32 with
    round-to-nearest-even, as given by the Standard Library's [SpecFloat];
    it computes, a division 0/0 is a NaN in it and no comparison with a
    NaN succeeds.  The statements about numbers are proved in it; the
    statements that do not depend on the arithmetic (the shape of the
    partitions, what is returned, how many words are shown) are proved
    for every instance of the interface.  [real_arith], exact real
    arithmetic, is a second instance; one statement about a single
    cluster is also stated in it.

    [vectors.h] and [cluster_data.h] are not among the sources: their
    functions and the struct are modelled from the specification and
    marked so.  The preconditions of the engine are [1 <= k <= dc]; the
    division [dc / k] is not defined by C for [k = 0].

    C [int]s are [Z]; positions in arrays are [nat].  A partition is an
    array of pointers to rows of the document matrix: it is modelled as the
    list of the row numbers it points to. *)

From Stdlib Require Import ZArith List Bool Lia Permutation.
From Stdlib Require Import Reals Lra Psatz.
From Stdlib Require Import Floats.SpecFloat.
From Stdlib Require Import Sorted.
From Stdlib Require String.
Import ListNotations.

Set Implicit Arguments.

(** ** Scalar arithmetic *)

Class Arith (F : Type) : Type := {
  f_zero : F;
  f_add : F -> F -> F;
  f_sub : F -> F -> F;
  f_mul : F -> F -> F;
  f_div : F -> F -> F;
  f_sqrt : F -> F;
  (** [f_gt a b] is the C comparison [a > b] *)
  f_gt : F -> F -> bool;
  (** conversion of an [int] *)
  f_of_int : Z -> F;
  (** [#define Q_THRESHOLD 0.001] *)
  Q_THRESHOLD : F
}.

Section Engine.

Context {F : Type} {A : Arith F}.

Definition vec : Type := list F.

(** [v[i]] *)
Definition at_ (v : vec) (i : nat) : F := nth i v f_zero.

(** A fresh array of [n] cells, cell [i] holding [f i]. *)
Definition tabulate (n : Z) (f : nat -> F) : vec :=
  map f (seq 0 (Z.to_nat n)).

(** [acc = 0; for (i = 0; i < n; i++) acc += f(i);] *)
Definition accumulate (n : nat) (f : nat -> F) : F :=
  fold_left (fun acc i => f_add acc (f i)) (seq 0 n) f_zero.

(** *** Vector algebra ([vectors.h]) *)

(** Modelled from the spec: [vec_dot] of [vectors.h], which is not among the
    sources; "sum of elementwise products" of two vectors of length [n]. *)
Definition vec_dot (a b : vec) (n : Z) : F :=
  accumulate (Z.to_nat n) (fun i => f_mul (at_ a i) (at_ b i)).

(** Modelled from the spec: [vec_norm] of [vectors.h]; "Euclidean norm,
    sqrt(dot(a,a))". *)
Definition vec_norm (a : vec) (n : Z) : F :=
  f_sqrt (vec_dot a a n).

(** Modelled from the spec: [vec_sum] of [vectors.h]; "elementwise sum
    across all member vectors" of a group of [count] vectors of length [n]. *)
Definition vec_sum (group : list vec) (n count : Z) : vec :=
  tabulate n (fun i =>
    accumulate (Z.to_nat count) (fun j => at_ (nth j group []) i)).

(** Modelled from the spec: [vec_multiply] of [vectors.h]; "multiplies every
    element by scalar s". *)
Definition vec_multiply (a : vec) (n : Z) (s : F) : vec :=
  tabulate n (fun i => f_mul (at_ a i) s).

(** Modelled from the spec: [vec_divide] of [vectors.h]; "divides every
    element by scalar s".  No test of [s] is made. *)
Definition vec_divide (a : vec) (n : Z) (s : F) : vec :=
  tabulate n (fun i => f_div (at_ a i) s).

(** Modelled from the spec: [vec_normalize] of [vectors.h]; "divides a by
    norm(a)".  No test of the norm is made. *)
Definition vec_normalize (a : vec) (n : Z) : vec :=
  vec_divide a n (vec_norm a n).

(** *** Cluster data ([cluster_data.h]) *)

(** Modelled from the spec: the struct [ClusterData] of [cluster_data.h],
    which is not among the sources; "the aggregate of k partitions, their
    sizes, and k concept vectors, plus the fixed parameters k, dc, wc". *)
Record ClusterData : Type := mkClusterData {
  cd_k : Z;
  cd_dc : Z;
  cd_wc : Z;
  partitions : list (list nat);
  p_sizes : list Z;
  concepts : list vec
}.

(** The rows a partition points to. *)
Definition rows (doc_matrix : list vec) (partition : list nat) : list vec :=
  map (fun i => nth i doc_matrix []) partition.

(** *** [spkmeans.cpp] *)

(** [txnScheme]: normalizes rows [0 .. dc-1] in place. *)
Definition txnScheme (doc_matrix : list vec) (dc wc : Z) : list vec :=
  map (fun i => vec_normalize (nth i doc_matrix []) wc)
      (seq 0 (Z.to_nat dc)).

(** [computeQuality] of one partition. *)
Definition computeQuality1 (partition : list vec) (p_size : Z)
    (concept : vec) (wc : Z) : F :=
  let sum_p := vec_sum partition wc p_size in
  vec_dot sum_p concept wc.

(** [computeQuality] of all partitions. *)
Definition computeQuality (parts : list (list vec)) (sizes : list Z)
    (cvs : list vec) (k wc : Z) : F :=
  accumulate (Z.to_nat k) (fun i =>
    computeQuality1 (nth i parts []) (nth i sizes 0%Z) (nth i cvs []) wc).

Definition cosineSimilarity (dv cv : vec) (wc : Z) : F :=
  f_div (vec_dot dv cv wc) (f_mul (vec_norm dv wc) (vec_norm cv wc)).

Definition computeConcept (partition : list vec) (p_size wc : Z) : vec :=
  let cv := vec_sum partition wc p_size in
  let cv := vec_multiply cv wc (f_div (f_of_int 1) (f_of_int wc)) in
  vec_divide cv wc (vec_norm cv wc).

(** The loop that creates the first partitioning, from its [i]-th round on,
    [n] rounds being left; returns the slots [i ..] of [partitions] and of
    [p_sizes].  Slot [i] points to the rows [base + j - 1], [0 <= j < p_size]. *)
Fixpoint first_partitioning (n : nat) (i base split dc k : Z)
    : list (list nat) * list Z :=
  match n with
  | O => ([], [])
  | S n' =>
      let top := (base + split - 1)%Z in
      let top := if (i =? k - 1)%Z then dc else top in
      let p_size := (top - base + 1)%Z in
      let partition :=
        map (fun j => Z.to_nat (base + Z.of_nat j - 1))
            (seq 0 (Z.to_nat p_size)) in
      let rest := first_partitioning n' (i + 1) (base + split) split dc k in
      (partition :: fst rest, p_size :: snd rest)
  end.

(** [for (i = 0; i < k; i++) concepts[i] = computeConcept(...)] *)
Definition computeConcepts (doc_matrix : list vec) (parts : list (list nat))
    (sizes : list Z) (k wc : Z) : list vec :=
  map (fun i => computeConcept (rows doc_matrix (nth i parts []))
                               (nth i sizes 0%Z) wc)
      (seq 0 (Z.to_nat k)).

(** The inner loop of the assignment step over the concepts [js], with the
    best index and value seen so far. *)
Fixpoint best_concept (dv : vec) (cvs : list vec) (wc : Z) (js : list nat)
    (cIndx : nat) (cVal : F) : nat :=
  match js with
  | [] => cIndx
  | j :: js' =>
      let new_cVal := cosineSimilarity dv (nth j cvs []) wc in
      if f_gt new_cVal cVal
      then best_concept dv cvs wc js' j new_cVal
      else best_concept dv cvs wc js' cIndx cVal
  end.

(** The partition chosen for one document: [cIndx] after the inner loop. *)
Definition assign_doc (dv : vec) (cvs : list vec) (k wc : Z) : nat :=
  best_concept dv cvs wc (seq 1 (Z.to_nat k - 1)) 0
               (cosineSimilarity dv (nth 0 cvs []) wc).

(** [new_partitions[c].push_back(doc_matrix[i])] *)
Fixpoint push_back (c i : nat) (parts : list (list nat)) : list (list nat) :=
  match parts, c with
  | [], _ => []
  | p :: ps, O => (p ++ [i]) :: ps
  | p :: ps, S c' => p :: push_back c' i ps
  end.

(** The assignment step: [k] empty vectors, then every document pushed to
    the back of the vector of its best concept. *)
Definition new_partitions (doc_matrix : list vec) (cvs : list vec)
    (k dc wc : Z) : list (list nat) :=
  fold_left
    (fun parts i => push_back (assign_doc (nth i doc_matrix []) cvs k wc) i parts)
    (seq 0 (Z.to_nat dc))
    (repeat [] (Z.to_nat k)).

(** The local variables of [runSPKMeans] that live across the loop. *)
Record LoopState : Type := mkLoopState {
  data : ClusterData;
  quality : F;
  dQ : F;
  iterations : Z
}.

Definition quality_of (doc_matrix : list vec) (d : ClusterData) : F :=
  computeQuality (map (rows doc_matrix) (partitions d)) (p_sizes d)
                 (concepts d) (cd_k d) (cd_wc d).

(** The state on entry to the [while] loop; [doc_matrix] is the matrix
    after [txnScheme]. *)
Definition initial_state (doc_matrix : list vec) (k dc wc : Z) : LoopState :=
  let split := (dc / k)%Z in
  let first := first_partitioning (Z.to_nat k) 0 1 split dc k in
  let cvs := computeConcepts doc_matrix (fst first) (snd first) k wc in
  let d := mkClusterData k dc wc (fst first) (snd first) cvs in
  mkLoopState d (quality_of doc_matrix d)
              (f_mul Q_THRESHOLD (f_of_int 10)) 0.

(** One execution of the body of the [while] loop. *)
Definition loop_body (doc_matrix : list vec) (st : LoopState) : LoopState :=
  let d := data st in
  let k := cd_k d in
  let dc := cd_dc d in
  let wc := cd_wc d in
  let iterations' := (iterations st + 1)%Z in
  let new_parts := new_partitions doc_matrix (concepts d) k dc wc in
  let sizes := map (fun p => Z.of_nat (length p)) new_parts in
  let cvs := computeConcepts doc_matrix new_parts sizes k wc in
  let d' := mkClusterData k dc wc new_parts sizes cvs in
  let n_quality := quality_of doc_matrix d' in
  mkLoopState d' n_quality (f_sub n_quality (quality st)) iterations'.

(** [while (dQ > Q_THRESHOLD) body], with [fuel] bounding the number of
    tests of the guard; [None] when the fuel runs out. *)
Fixpoint spk_loop (fuel : nat) (doc_matrix : list vec) (st : LoopState)
    : option LoopState :=
  match fuel with
  | O => None
  | S fuel' =>
      if f_gt (dQ st) Q_THRESHOLD
      then spk_loop fuel' doc_matrix (loop_body doc_matrix st)
      else Some st
  end.

(** The locals of [runSPKMeans] when the loop is left. *)
Definition runSPKMeans_locals (fuel : nat) (doc_matrix : list vec)
    (k dc wc : Z) : option LoopState :=
  let D := txnScheme doc_matrix dc wc in
  spk_loop fuel D (initial_state D k dc wc).

(** [runSPKMeans]: what it returns is [data]. *)
Definition runSPKMeans (fuel : nat) (doc_matrix : list vec) (k dc wc : Z)
    : option ClusterData :=
  option_map data (runSPKMeans_locals fuel doc_matrix k dc wc).

(** The state after [n] executions of the body. *)
Fixpoint after (n : nat) (doc_matrix : list vec) (st : LoopState) : LoopState :=
  match n with
  | O => st
  | S n' => loop_body doc_matrix (after n' doc_matrix st)
  end.

End Engine.

(** ** The two readings of the arithmetic *)

Definition Rgtb (a b : R) : bool := if Rlt_dec b a then true else false.

#[export] Instance real_arith : Arith R := {|
  f_zero := 0%R;
  f_add := Rplus;
  f_sub := Rminus;
  f_mul := Rmult;
  f_div := Rdiv;
  f_sqrt := sqrt;
  f_gt := Rgtb;
  f_of_int := IZR;
  Q_THRESHOLD := (1 / 1000)%R
|}.

Module Ieee.

(** binary32: 24 bits of precision, exponents below 128.  Every operation
    rounds once, to binary32; the two expressions that C evaluates in
    [double] before narrowing ([Q_THRESHOLD * 10] and [1.0 / wc]) are
    rounded once to binary32 as well. *)
Definition prec : Z := 24.
Definition emax : Z := 128.

Definition of_int (z : Z) : spec_float := binary_normalize prec emax z 0 false.

(** The literal [0.001] is a [double]: the binary64 number nearest to
    1/1000. *)
Definition threshold : spec_float :=
  SFdiv 53 1024 (binary_normalize 53 1024 1 0 false)
                (binary_normalize 53 1024 1000 0 false).

(** The promotion of a [float] to [double], which is exact.  [SFltb] compares
    two numbers written at one precision, so both sides of a comparison are
    promoted first, as C does when one side is a [double]. *)
Definition widen (x : spec_float) : spec_float :=
  match x with
  | S754_finite s m e => binary_normalize 53 1024 (cond_Zopp s (Zpos m)) e s
  | _ => x
  end.

Definition gt (a b : spec_float) : bool := SFltb (widen b) (widen a).

Definition arith : Arith spec_float := {|
  f_zero := S754_zero false;
  f_add := SFadd prec emax;
  f_sub := SFsub prec emax;
  f_mul := SFmul prec emax;
  f_div := SFdiv prec emax;
  f_sqrt := SFsqrt prec emax;
  f_gt := gt;
  f_of_int := of_int;
  Q_THRESHOLD := threshold
|}.

(** [a <= b], both sides promoted. *)
Definition le (a b : spec_float) : bool := SFleb (widen a) (widen b).

Definition is_zero (x : spec_float) : bool :=
  match x with S754_zero _ => true | _ => false end.

Definition is_nan (x : spec_float) : bool :=
  match x with S754_nan => true | _ => false end.

(** The place of a number that is not a NaN in the order that
    [SFcompare] decides: the sign class first (minus infinity, negative,
    zero, positive, plus infinity), then the exponent, then the
    mantissa, both counted downwards for a negative number. *)
Definition key (x : spec_float) : Z * Z * Z :=
  match x with
  | S754_nan => (0, 0, 0)
  | S754_zero _ => (0, 0, 0)
  | S754_infinity true => (-2, 0, 0)
  | S754_infinity false => (2, 0, 0)
  | S754_finite false m e => (1, e, Zpos m)
  | S754_finite true m e => (-1, - e, Zneg m)
  end%Z.

Definition key_lt (a b : Z * Z * Z) : Prop :=
  (fst (fst a) < fst (fst b) \/
   (fst (fst a) = fst (fst b) /\
    (snd (fst a) < snd (fst b) \/
     (snd (fst a) = snd (fst b) /\ snd a < snd b))))%Z.

(** The place of a [float] once promoted, as the comparisons see it. *)
Definition rank (x : spec_float) : Z * Z * Z := key (widen x).

(** A document matrix of whole-number weights. *)
Definition matrix (rows : list (list Z)) : list (list spec_float) :=
  map (map of_int) rows.

End Ieee.

#[export] Instance ieee_arith : Arith spec_float := Ieee.arith.

(** Shows the operations of [real_arith] as the operations of [R]. *)
Ltac real_ops :=
  cbn [f_zero f_add f_sub f_mul f_div f_sqrt f_gt f_of_int Q_THRESHOLD
       real_arith] in *.

(** Splits a goal on the comparisons of integers it contains. *)
Ltac compare_cases :=
  repeat match goal with
  | |- context [Pos.compare_cont Eq ?a ?b] =>
      change (Pos.compare_cont Eq a b) with (Pos.compare a b)
  | |- context [Z.compare ?a ?b] => destruct (Z.compare_spec a b)
  | |- context [Pos.compare ?a ?b] => destruct (Pos.compare_spec a b)
  end.

(** ** Inputs of the examples *)

(** Six documents of two words, clustered with [k = 3]. *)
Definition six_documents : list (list Z) :=
  [[2; 3]; [19; 11]; [23; 5]; [20; 5]; [8; 2]; [22; 7]]%Z.

(** Four documents in a narrow cone, in two orders of the rows: rows 0 and
    2 are exchanged.  Clustered with [k = 2]. *)
Definition cone_documents : list (list Z) :=
  [[125; 0]; [125; 6]; [125; 4]; [125; 12]]%Z.


(** One document whose weights are all zero. *)
Definition zero_document : list (list Z) := [[0; 0]]%Z.

(** Four documents with real weights; rows 0, 2 and 3 are equal. *)
Definition four_real_documents : list (@vec R) :=
  [[1; 0]; [7; 24]; [1; 0]; [1; 0]]%R.

(** Four documents, two pairs of equal rows; with [k = 3] the first round
    leaves the third partition empty. *)
Definition nan_exit_documents : list (list Z) :=
  [[1; 0]; [7; 24]; [1; 0]; [7; 24]]%Z.

(** Three documents, the first of which is all zeros. *)
Definition zero_first_documents : list (list Z) :=
  [[0; 0]; [1; 0]; [0; 1]]%Z.





(** The two unit vectors of the plane. *)
Definition axis_documents : list (list Z) := [[1; 0]; [0; 1]]%Z.

(** The weights of three words in one document. *)
Definition word_weights : list (list Z) := [[3; 4; 4]]%Z.

(** ** Definitions used by the statements *)

Section SpecWords.

Context {F : Type} {A : Arith F}.




(** What holds of the cluster data on entry to the loop and after each
    round: [k] partitions that hold every document once, and sizes that
    are the lengths of the partitions. *)
Definition well_partitioned (k dc : Z) (d : @ClusterData F) : Prop :=
  length (partitions d) = Z.to_nat k /\
  Permutation (concat (partitions d)) (seq 0 (Z.to_nat dc)) /\
  p_sizes d = map (fun p => Z.of_nat (length p)) (partitions d).

(** What ties the locals of the loop together on entry and after each
    round: the parameters are those of the run, the partitions hold every
    document once, the concepts are those of the partitions and the
    quality is that of the cluster data. *)
Definition consistent (doc_matrix : list vec) (k dc wc : Z)
    (st : LoopState) : Prop :=
  cd_k (data st) = k /\ cd_dc (data st) = dc /\ cd_wc (data st) = wc /\
  well_partitioned k dc (data st) /\
  concepts (data st)
    = computeConcepts doc_matrix (partitions (data st)) (p_sizes (data st))
                      k wc /\
  quality st = quality_of doc_matrix (data st).

(** The guard of the loop holds on entry to each of the rounds
    [0 .. n-1] and fails after round [n]: the loop leaves after exactly [n]
    executions of its body. *)
Definition leaves_after (n : nat) (doc_matrix : list vec) (st : LoopState)
    : Prop :=
  (forall m, (m < n)%nat ->
     f_gt (dQ (after m doc_matrix st)) Q_THRESHOLD = true) /\
  f_gt (dQ (after n doc_matrix st)) Q_THRESHOLD = false.

End SpecWords.

(** Documents [docs] pushed one after the other, document [i] to the back
    of slot [c i]: the shape of the assignment step. *)
Definition distribute (c : nat -> nat) (docs : list nat)
    (init : list (list nat)) : list (list nat) :=
  fold_left (fun parts i => push_back (c i) i parts) docs init.

(** The sum of a list of sizes. *)
Definition total_size (sizes : list Z) : Z := fold_right Z.add 0%Z sizes.


(** [i] is the lowest index below [k] at which [sim] is maximal, in the
    order of the comparisons of binary32. *)
Definition first_maximum (k : nat) (sim : nat -> spec_float) (i : nat)
    : Prop :=
  (i < k)%nat /\
  (forall j, (j < k)%nat -> Ieee.le (sim j) (sim i) = true) /\
  (forall j, (j < i)%nat -> Ieee.gt (sim i) (sim j) = true).

(** ** Showing the results ([displayResults]) *)

Section Display.

Context {F : Type} {A : Arith F}.

(** [operator<] of [std::pair<float, int>]: by the first component, then
    by the second. *)
Definition pair_lt (a b : F * nat) : bool :=
  f_gt (fst b) (fst a)
  || (negb (f_gt (fst a) (fst b)) && (snd a <? snd b))%nat.

(** [q.top()] of a [std::priority_queue] holding the pairs [q]: a
    greatest pair, found by a scan of the pairs; none when the queue is
    empty, where C++ leaves the call undefined.  The queue is kept as the
    list of the pairs it holds.  When no weight is a NaN, [operator<]
    orders the pairs and the heap of the library returns this pair; with
    a NaN among the weights [operator<] is not an order and which pair
    the heap returns is not modelled: only the number of pairs is. *)
Fixpoint greatest (cur : F * nat) (q : list (F * nat)) : F * nat :=
  match q with
  | [] => cur
  | x :: q' => greatest (if pair_lt cur x then x else cur) q'
  end.

Definition pq_top (q : list (F * nat)) : option (F * nat) :=
  match q with
  | [] => None
  | x :: q' => Some (greatest x q')
  end.

(** [q.pop()]: the queue without its top; the pairs pushed by
    [displayResults] differ in their second component. *)
Definition pq_pop (q : list (F * nat)) : list (F * nat) :=
  match pq_top q with
  | None => q
  | Some t => filter (fun x => negb (snd x =? snd t)%nat) q
  end.

(** The loop "show top num_to_show words": the indices shown, in the
    order they are shown; [None] when [q.top()] is called on an empty
    queue. *)
Fixpoint show_top (n : nat) (q : list (F * nat)) : option (list nat) :=
  match n with
  | O => Some []
  | S n' =>
      match pq_top q with
      | None => None
      | Some t =>
          match show_top n' (pq_pop q) with
          | None => None
          | Some rest => Some (snd t :: rest)
          end
      end
  end.

(** The queue after the loop of [q.push]: the pair [(values[i], i)] for
    each word [i]. *)
Definition word_queue (sum : vec) (wc : Z) : list (F * nat) :=
  map (fun i => (at_ sum i, i)) (seq 0 (Z.to_nat wc)).

(** The words shown for one partition: [num_to_show] is the value after
    the test against [wc] at the head of [displayResults]. *)
Definition top_words (partition : list vec) (p_size wc num_to_show : Z)
    : option (list nat) :=
  let sum := vec_sum partition wc p_size in
  show_top (Z.to_nat num_to_show) (word_queue sum wc).

(** [displayResults]: for each partition [i < k], in order, the indices
    of the words that are shown under the line "Partition #i+1" (the
    text of a line is [words[index]] when [words] is given, the index
    otherwise).  [None] when a [q.top()] is undefined. *)
Definition clamp_num_to_show (wc num_to_show : Z) : Z :=
  if (num_to_show >? wc)%Z then wc else num_to_show.

Fixpoint displayed (doc_matrix : list vec) (d : @ClusterData F)
    (num_to_show : Z) (parts : list nat) : option (list (list nat)) :=
  match parts with
  | [] => Some []
  | i :: parts' =>
      match top_words (rows doc_matrix (nth i (partitions d) []))
                      (nth i (p_sizes d) 0%Z) (cd_wc d) num_to_show with
      | None => None
      | Some shown =>
          match displayed doc_matrix d num_to_show parts' with
          | None => None
          | Some rest => Some (shown :: rest)
          end
      end
  end.

Definition displayResults (doc_matrix : list vec) (d : @ClusterData F)
    (num_to_show : Z) : option (list (list nat)) :=
  displayed doc_matrix d (clamp_num_to_show (cd_wc d) num_to_show)
            (seq 0 (Z.to_nat (cd_k d))).

End Display.

(** [a] is shown before [b]: its summed weight is greater, or neither
    weight is greater and its index is. *)
Definition shown_before {F : Type} {A : Arith F} (sum : @vec F) (a b : nat)
    : Prop :=
  f_gt (at_ sum a) (at_ sum b) = true \/
  (f_gt (at_ sum b) (at_ sum a) = false /\ (b < a)%nat).

(** ** The command line ([processArgs], [main]) *)

Module Cli.

Import String.
Local Open Scope string_scope.

Definition RETURN_SUCCESS : Z := 0.
Definition RETURN_HELP : Z := 1.
Definition RETURN_VERSION : Z := 2.
Definition RETURN_ERROR : Z := -1.

Definition DEFAULT_K : Z := 2.
Definition DEFAULT_THREADS : Z := 2.
Definition DEFAULT_DOC_FILE : string := "docs".

Definition RUN_NORMAL : Z := 0.
Definition RUN_GALOIS : Z := 1.
Definition RUN_OPENMP : Z := 2.

(** What [processArgs] writes through its five pointers. *)
Record Settings : Type := mkSettings {
  doc_fname : string;
  vocab_fname : string;
  k : Z;
  num_threads : Z;
  run_type : Z
}.

(** The conversion of an [int] to [unsigned int]. *)
Definition to_unsigned (z : Z) : Z := z mod 2 ^ 32.

(** How a call of [processArgs] ends: with a [return], or in the
    conversion of [argv[argc]], a null pointer, to a [string] or by
    [atoi], which C++ leaves undefined. *)
Inductive Outcome : Type :=
| Returned (code : Z) (s : Settings)
| Undefined.

(** How the loop over the arguments ends. *)
Inductive Scan : Type :=
| Stop (code : Z) (s : Settings)
| Fell (s : Settings)
| Null.

Section WithEnvironment.

(** [atoi] of the C library, and whether a file can be opened for
    reading. *)
Variable atoi : string -> Z.
Variable file_good : string -> bool.

Definition defaults : Settings :=
  mkSettings DEFAULT_DOC_FILE "" DEFAULT_K DEFAULT_THREADS RUN_NORMAL.

(** The arguments that the loop handles without looking at the next
    one. *)
Definition is_switch (arg : string) : bool :=
  (arg =? "--help") || (arg =? "-h") || (arg =? "--version") || (arg =? "-V")
  || (arg =? "--galois") || (arg =? "--openmp").

(** The flags whose value [argv[i]] is read after [i++]. *)
Definition takes_value (arg : string) : bool :=
  (arg =? "-d") || (arg =? "-w") || (arg =? "-v") || (arg =? "-k")
  || (arg =? "-t").

(** The last branch of the loop, once [i++] has moved to the value [v]. *)
Definition set_value (s : Settings) (arg v : string) : Settings :=
  if arg =? "-d" then
    mkSettings v (vocab_fname s) (k s) (num_threads s) (run_type s)
  else if (arg =? "-w") || (arg =? "-v") then
    mkSettings (doc_fname s) v (k s) (num_threads s) (run_type s)
  else if arg =? "-k" then
    mkSettings (doc_fname s) (vocab_fname s) (to_unsigned (atoi v))
               (num_threads s) (run_type s)
  else if arg =? "-t" then
    mkSettings (doc_fname s) (vocab_fname s) (k s)
               (to_unsigned (atoi v)) (run_type s)
  else s.

Definition set_run_type (s : Settings) (r : Z) : Settings :=
  mkSettings (doc_fname s) (vocab_fname s) (k s) (num_threads s) r.

(** The loop [for (i = 1; i < argc; i++)] over [args], which is
    [argv[1] .. argv[argc-1]]. *)
Fixpoint scan (args : list string) (s : Settings) : Scan :=
  match args with
  | [] => Fell s
  | arg :: rest =>
      if (arg =? "--help") || (arg =? "-h") then Stop RETURN_HELP s
      else if (arg =? "--version") || (arg =? "-V") then Stop RETURN_VERSION s
      else if arg =? "--galois" then scan rest (set_run_type s RUN_GALOIS)
      else if arg =? "--openmp" then scan rest (set_run_type s RUN_OPENMP)
      else
        match rest with
        | [] => if takes_value arg then Null else Fell s
        | v :: rest' => scan rest' (set_value s arg v)
        end
  end.

(** [processArgs]; what it prints is left out. *)
Definition processArgs (args : list string) : Outcome :=
  match scan args defaults with
  | Stop code s => Returned code s
  | Null => Undefined
  | Fell s =>
      if file_good (doc_fname s)
      then Returned RETURN_SUCCESS s
      else Returned RETURN_ERROR s
  end.

(** What [main] does after [processArgs]: it leaves with a status, having
    printed the usage or the version, or it goes on to read the documents
    and to cluster them with the settings. *)
Inductive Step : Type :=
| ExitUsage (status : Z)
| ExitVersion (status : Z)
| Cluster (s : Settings).

Definition main_dispatch (args : list string) : option Step :=
  match processArgs args with
  | Undefined => None
  | Returned retval s =>
      if (retval =? RETURN_ERROR)%Z then Some (ExitUsage (-1))
      else if (retval =? RETURN_HELP)%Z then Some (ExitUsage 0)
      else if (retval =? RETURN_VERSION)%Z then Some (ExitVersion 0)
      else Some (Cluster s)
  end.

(** The pieces of a well-formed command line, for the statements: a run
    type switch, or a flag with its value. *)
Inductive Token : Type :=
| Mode (galois : bool)
| Flag (flag value : string).

Definition well_formed (t : Token) : Prop :=
  match t with
  | Mode _ => True
  | Flag flag _ => is_switch flag = false
  end.

Definition render (t : Token) : list string :=
  match t with
  | Mode true => ["--galois"]
  | Mode false => ["--openmp"]
  | Flag flag value => [flag; value]
  end.

Definition apply (s : Settings) (t : Token) : Settings :=
  match t with
  | Mode true => set_run_type s RUN_GALOIS
  | Mode false => set_run_type s RUN_OPENMP
  | Flag flag value => set_value s flag value
  end.

(** The value of the last occurrence of a flag among the tokens. *)
Fixpoint last_value (flag : string) (ts : list Token) (found : option string)
    : option string :=
  match ts with
  | [] => found
  | Flag f v :: ts' =>
      last_value flag ts' (if f =? flag then Some v else found)
  | Mode _ :: ts' => last_value flag ts' found
  end.

(** What a flag leaves in a setting: the value of its last occurrence,
    converted where the setting is a number, or what was there. *)
Definition number_of (base : Z) (found : option string) : Z :=
  match found with
  | Some v => to_unsigned (atoi v)
  | None => base
  end.

Definition text_of (base : string) (found : option string) : string :=
  match found with
  | Some v => v
  | None => base
  end.

(** The two numbers are values of an [unsigned int]. *)
Definition in_range (s : Settings) : Prop :=
  (0 <= k s < 2 ^ 32)%Z /\ (0 <= num_threads s < 2 ^ 32)%Z.

End WithEnvironment.

(** An environment for the examples: [atoi] on an optional minus sign
    followed by decimal digits, and a file system that holds the one
    file "docs". *)
Fixpoint digits (v : string) (acc : Z) : Z :=
  match v with
  | EmptyString => acc
  | String c v' =>
      let n := Ascii.nat_of_ascii c in
      if ((48 <=? n) && (n <=? 57))%nat
      then digits v' (10 * acc + Z.of_nat (n - 48))%Z
      else acc
  end.

Definition decimal (v : string) : Z :=
  match v with
  | EmptyString => 0%Z
  | String c v' =>
      if (Ascii.nat_of_ascii c =? 45)%nat
      then (- digits v' 0)%Z
      else digits v 0%Z
  end.

Definition only_docs (fname : string) : bool := fname =? "docs".

End Cli.

(** * Properties *)

(** ** Lists of document references *)

Lemma block_is_seq (b : Z) (len s : nat) :
  (1 <= b)%Z ->
  map (fun j => Z.to_nat (b + Z.of_nat j - 1)) (seq s len)
  = seq (Z.to_nat (b - 1) + s) len.
Proof.
  intros Hb. revert s.
  induction len as [|len IH]; intros s; simpl; [reflexivity|].
  f_equal.
  - lia.
  - rewrite IH. f_equal. lia.
Qed.

Lemma nth_concat_unique (l : list (list nat)) (x i j : nat) :
  NoDup (concat l) ->
  In x (nth i l []) -> In x (nth j l []) -> i = j.
Proof.
  revert i j.
  induction l as [|p l IH]; intros i j Hnd Hi Hj.
  - destruct i; contradiction.
  - simpl in Hnd.
    assert (Hl : NoDup (concat l)) by (eapply NoDup_app_remove_l; eassumption).
    assert (Hsep : forall y k, In y p -> In y (nth k l []) -> False).
    { intros y k Hp Hk.
      assert (Hc : In y (concat l)).
      { apply in_concat. exists (nth k l []). split; [|assumption].
        destruct (Nat.lt_ge_cases k (length l)) as [Hlt|Hge].
        - now apply nth_In.
        - rewrite nth_overflow in Hk by assumption. contradiction. }
      revert Hnd Hp Hc. clear. induction p as [|a p IHp]; simpl; intros Hnd Hp Hc.
      - assumption.
      - inversion Hnd as [|? ? Hna Hnd']; subst.
        destruct Hp as [->|Hp].
        + apply Hna. apply in_or_app. now right.
        + now apply IHp. }
    destruct i as [|i], j as [|j]; simpl in Hi, Hj.
    + reflexivity.
    + exfalso. eapply Hsep; eassumption.
    + exfalso. eapply Hsep; eassumption.
    + f_equal. now apply IH.
Qed.

(** When the concatenation of the partitions is a rearrangement of
    [0 .. n-1], every document below [n] is in exactly one partition. *)
Lemma exactly_one_partition (l : list (list nat)) (n x : nat) :
  Permutation (concat l) (seq 0 n) -> (x < n)%nat ->
  exists i, (i < length l)%nat /\ In x (nth i l []) /\
            forall j, In x (nth j l []) -> j = i.
Proof.
  intros Hp Hx.
  assert (Hin : In x (concat l)).
  { eapply Permutation_in; [apply Permutation_sym; eassumption|].
    apply in_seq. lia. }
  assert (Hnd : NoDup (concat l)).
  { eapply Permutation_NoDup; [apply Permutation_sym; eassumption|].
    apply seq_NoDup. }
  apply in_concat in Hin. destruct Hin as [p [Hp1 Hp2]].
  destruct (In_nth _ _ [] Hp1) as [i [Hi Hnth]].
  exists i. split; [assumption|]. split.
  - now rewrite Hnth.
  - intros j Hj. eapply nth_concat_unique; try eassumption. now rewrite Hnth.
Qed.

(** ** The first partitioning *)

Section FirstPartitioning.

Variables split dc k : Z.
Hypothesis Hsplit : (0 <= split)%Z.

Lemma first_partitioning_length (n : nat) (i base : Z) :
  length (fst (first_partitioning n i base split dc k)) = n /\
  length (snd (first_partitioning n i base split dc k)) = n.
Proof.
  revert i base. induction n as [|n IH]; intros i base; simpl.
  - split; reflexivity.
  - destruct (IH (i + 1)%Z (base + split)%Z) as [H1 H2].
    split; f_equal; assumption.
Qed.

(** Slot [i + j] of the arrays, for a round [j] that is not the last. *)
Lemma first_partitioning_inner (n : nat) (i base : Z) (j : nat) :
  (1 <= base)%Z -> (i + Z.of_nat n = k)%Z -> (S j < n)%nat ->
  nth j (fst (first_partitioning n i base split dc k)) []
    = seq (Z.to_nat (base - 1) + j * Z.to_nat split) (Z.to_nat split) /\
  nth j (snd (first_partitioning n i base split dc k)) 0%Z = split.
Proof.
  revert i base j. induction n as [|n IH]; intros i base j Hb Hk Hj; [lia|].
  cbn [first_partitioning fst snd].
  assert (Hne : (i =? k - 1)%Z = false) by (apply Z.eqb_neq; lia).
  rewrite Hne.
  replace (base + split - 1 - base + 1)%Z with split by lia.
  destruct j as [|j]; cbn [nth].
  - split; [|reflexivity].
    rewrite block_is_seq by assumption. f_equal; lia.
  - destruct (IH (i + 1)%Z (base + split)%Z j) as [H1 H2]; try lia.
    rewrite H1, H2. split; [|reflexivity]. f_equal; lia.
Qed.

(** The last slot. *)
Lemma first_partitioning_last (n : nat) (i base : Z) :
  (1 <= base)%Z -> (i + Z.of_nat (S n) = k)%Z ->
  nth n (fst (first_partitioning (S n) i base split dc k)) []
    = seq (Z.to_nat (base - 1) + n * Z.to_nat split)
          (Z.to_nat (dc - (base + Z.of_nat n * split) + 1)) /\
  nth n (snd (first_partitioning (S n) i base split dc k)) 0%Z
    = (dc - (base + Z.of_nat n * split) + 1)%Z.
Proof.
  revert i base. induction n as [|n IH]; intros i base Hb Hk.
  - cbn [first_partitioning fst snd nth].
    assert (He : (i =? k - 1)%Z = true) by (apply Z.eqb_eq; lia).
    rewrite He. rewrite block_is_seq by assumption.
    replace (base + Z.of_nat 0 * split)%Z with base by lia.
    split; [|reflexivity]. f_equal; lia.
  - remember (S n) as m eqn:Hm.
    cbn [first_partitioning fst snd]. cbn [nth].
    destruct (IH (i + 1)%Z (base + split)%Z) as [H1 H2]; try lia.
    subst m. rewrite H1, H2.
    replace (base + split + Z.of_nat n * split)%Z
      with (base + Z.of_nat (S n) * split)%Z by lia.
    split; [|reflexivity]. f_equal; lia.
Qed.

(** The slots from round [i] on point to the rows [base - 1 .. dc - 1],
    in this order. *)
Lemma first_partitioning_concat (n : nat) (i base : Z) :
  (1 <= base)%Z -> (i + Z.of_nat (S n) = k)%Z ->
  (base - 1 + Z.of_nat n * split <= dc)%Z ->
  concat (fst (first_partitioning (S n) i base split dc k))
    = seq (Z.to_nat (base - 1)) (Z.to_nat (dc - base + 1)).
Proof.
  revert i base. induction n as [|n IH]; intros i base Hb Hk Hdc.
  - cbn [first_partitioning fst concat].
    assert (He : (i =? k - 1)%Z = true) by (apply Z.eqb_eq; lia).
    rewrite He, app_nil_r, block_is_seq by assumption. f_equal; lia.
  - remember (S n) as m eqn:Hm.
    cbn [first_partitioning fst concat].
    assert (Hne : (i =? k - 1)%Z = false) by (apply Z.eqb_neq; lia).
    rewrite Hne. subst m.
    rewrite IH by lia.
    replace (base + split - 1 - base + 1)%Z with split by lia.
    rewrite block_is_seq by assumption.
    replace (Z.to_nat (base + split - 1)) with
      (Z.to_nat (base - 1) + 0 + Z.to_nat split)%nat by lia.
    rewrite <- seq_app. f_equal; lia.
Qed.

Lemma first_partitioning_sizes (n : nat) (i base : Z) :
  (i + Z.of_nat (S n) = k)%Z ->
  (base - 1 + Z.of_nat n * split <= dc)%Z ->
  snd (first_partitioning (S n) i base split dc k)
    = map (fun p => Z.of_nat (length p))
          (fst (first_partitioning (S n) i base split dc k)).
Proof.
  revert i base. induction n as [|n IH]; intros i base Hk Hdc.
  - cbn [first_partitioning fst snd map].
    assert (He : (i =? k - 1)%Z = true) by (apply Z.eqb_eq; lia).
    rewrite He, length_map, length_seq. f_equal; lia.
  - remember (S n) as m eqn:Hm.
    cbn [first_partitioning fst snd map].
    assert (Hne : (i =? k - 1)%Z = false) by (apply Z.eqb_neq; lia).
    rewrite Hne. subst m.
    rewrite <- IH by lia.
    rewrite length_map, length_seq. f_equal; lia.
Qed.

End FirstPartitioning.

(** C4.  For [1 <= k <= dc] the first partitioning, a function of [dc] and
    [k] alone, cuts the documents into [k] contiguous blocks: block [i],
    for each of the first [k-1], is the [dc/k] documents from [i * (dc/k)]
    on; the last block is the [dc/k + dc mod k] documents that remain; the
    blocks put end to end are [0 .. dc-1], so every document is in exactly
    one block. *)
Theorem first_partitioning_blocks (dc k : Z) :
  (1 <= k <= dc)%Z ->
  let s := (dc / k)%Z in
  let first := first_partitioning (Z.to_nat k) 0 1 s dc k in
  length (fst first) = Z.to_nat k /\
  (forall i, (S i < Z.to_nat k)%nat ->
     nth i (fst first) [] = seq (i * Z.to_nat s) (Z.to_nat s) /\
     nth i (snd first) 0%Z = s) /\
  (nth (Z.to_nat k - 1) (fst first) []
     = seq ((Z.to_nat k - 1) * Z.to_nat s) (Z.to_nat (s + dc mod k)) /\
   nth (Z.to_nat k - 1) (snd first) 0%Z = (s + dc mod k)%Z) /\
  concat (fst first) = seq 0 (Z.to_nat dc) /\
  (forall d, (d < Z.to_nat dc)%nat ->
     exists i, (i < Z.to_nat k)%nat /\ In d (nth i (fst first) []) /\
               forall j, In d (nth j (fst first) []) -> j = i).
Proof.
  intros Hk s first.
  assert (Hs : (0 <= s)%Z) by (apply Z.div_pos; lia).
  assert (Hmul : (k * s <= dc)%Z) by (apply Z.mul_div_le; lia).
  assert (Hmod : (dc mod k = dc - k * s)%Z) by (unfold s; apply Z.mod_eq; lia).
  destruct (Z.to_nat k) as [|n] eqn:Hn; [lia|].
  assert (Hcat : concat (fst first) = seq 0 (Z.to_nat dc)).
  { unfold first. rewrite first_partitioning_concat by (try lia; nia).
    f_equal; lia. }
  assert (Hlen : length (fst first) = S n)
    by apply first_partitioning_length.
  split; [exact Hlen|]. split; [|split; [|split]].
  - intros i Hi. unfold first.
    destruct (@first_partitioning_inner s dc k Hs (S n) 0%Z 1%Z i) as [H1 H2];
      try lia.
    rewrite H1, H2. split; [|reflexivity]. f_equal.
  - replace (S n - 1)%nat with n by lia. unfold first.
    destruct (@first_partitioning_last s dc k Hs n 0%Z 1%Z) as [H1 H2];
      try lia.
    rewrite H1, H2.
    assert (He : (dc - (1 + Z.of_nat n * s) + 1 = s + dc mod k)%Z) by nia.
    rewrite He. split; [|reflexivity]. f_equal.
  - exact Hcat.
  - intros d Hd. rewrite <- Hlen.
    apply exactly_one_partition with (n := Z.to_nat dc); [|assumption].
    rewrite Hcat. apply Permutation_refl.
Qed.

Lemma first_partitioning_blocks_witness :
  (1 <= 3 <= 10)%Z /\
  concat (fst (first_partitioning (Z.to_nat 3) 0 1 (10 / 3) 10 3))
    = seq 0 (Z.to_nat 10).
Proof.
  split; [lia|].
  apply (first_partitioning_blocks (dc := 10) (k := 3)). lia.
Defined.

(** ** The assignment step *)

Lemma push_back_length (c i : nat) (parts : list (list nat)) :
  length (push_back c i parts) = length parts.
Proof.
  revert c. induction parts as [|p ps IH]; intros [|c]; simpl; congruence.
Qed.

Lemma push_back_nth (c i : nat) (parts : list (list nat)) (j : nat) :
  (c < length parts)%nat ->
  nth j (push_back c i parts) []
    = if Nat.eqb c j then nth j parts [] ++ [i] else nth j parts [].
Proof.
  revert c j. induction parts as [|p ps IH]; intros c j Hc; simpl in Hc; [lia|].
  destruct c as [|c], j as [|j]; simpl; try reflexivity.
  apply IH. lia.
Qed.

Lemma push_back_concat (c i : nat) (parts : list (list nat)) :
  (c < length parts)%nat ->
  Permutation (concat (push_back c i parts)) (i :: concat parts).
Proof.
  revert c. induction parts as [|p ps IH]; intros c Hc; simpl in Hc; [lia|].
  destruct c as [|c]; simpl.
  - rewrite <- app_assoc. simpl.
    apply Permutation_sym, Permutation_middle.
  - eapply Permutation_trans.
    + apply Permutation_app_head. apply IH. lia.
    + apply Permutation_sym, Permutation_middle.
Qed.

Section Distribute.

Variable c : nat -> nat.

Lemma distribute_length (docs : list nat) (init : list (list nat)) :
  length (distribute c docs init) = length init.
Proof.
  revert init. induction docs as [|a docs IH]; intros init; simpl.
  - reflexivity.
  - unfold distribute in *. simpl. rewrite IH. apply push_back_length.
Qed.

Lemma distribute_nth (docs : list nat) (init : list (list nat)) (j : nat) :
  (forall i, In i docs -> (c i < length init)%nat) ->
  nth j (distribute c docs init) []
    = nth j init [] ++ filter (fun i => Nat.eqb (c i) j) docs.
Proof.
  revert init. induction docs as [|a docs IH]; intros init Hc.
  - simpl. now rewrite app_nil_r.
  - unfold distribute in *. simpl fold_left. rewrite IH.
    + rewrite push_back_nth by (apply Hc; now left).
      simpl filter. destruct (Nat.eqb (c a) j).
      * now rewrite <- app_assoc.
      * reflexivity.
    + intros i Hi. rewrite push_back_length. apply Hc. now right.
Qed.

Lemma distribute_concat (docs : list nat) (init : list (list nat)) :
  (forall i, In i docs -> (c i < length init)%nat) ->
  Permutation (concat (distribute c docs init)) (concat init ++ docs).
Proof.
  revert init. induction docs as [|a docs IH]; intros init Hc.
  - simpl. now rewrite app_nil_r.
  - unfold distribute in *. simpl fold_left.
    eapply Permutation_trans.
    + apply IH. intros i Hi. rewrite push_back_length. apply Hc. now right.
    + eapply Permutation_trans.
      * apply Permutation_app_tail. apply push_back_concat.
        apply Hc. now left.
      * simpl. apply Permutation_middle.
Qed.

End Distribute.

Lemma concat_repeat_nil (n : nat) : concat (repeat ([] : list nat) n) = [].
Proof. induction n; simpl; auto. Qed.

Lemma nth_repeat_nil (n j : nat) : nth j (repeat ([] : list nat) n) [] = [].
Proof.
  revert j. induction n as [|n IH]; intros [|j]; simpl; auto.
Qed.

Lemma total_size_lengths (l : list (list nat)) :
  total_size (map (fun p => Z.of_nat (length p)) l)
  = Z.of_nat (length (concat l)).
Proof.
  unfold total_size.
  induction l as [|p l IH]; simpl; [reflexivity|].
  rewrite IH, length_app. lia.
Qed.

Section AssignmentAnyArith.

Context {F : Type} {A : Arith F}.

Lemma best_concept_among (dv : vec) (cvs : list vec) (wc : Z)
    (js : list nat) (cIndx : nat) (cVal : F) :
  best_concept dv cvs wc js cIndx cVal = cIndx \/
  In (best_concept dv cvs wc js cIndx cVal) js.
Proof.
  revert cIndx cVal. induction js as [|j js IH]; intros cIndx cVal; simpl.
  - now left.
  - destruct (f_gt _ cVal).
    + destruct (IH j (cosineSimilarity dv (nth j cvs []) wc)) as [->|H]; auto.
    + destruct (IH cIndx cVal) as [->|H]; auto.
Qed.

Lemma assign_doc_below (dv : vec) (cvs : list vec) (k wc : Z) :
  (1 <= k)%Z -> (assign_doc dv cvs k wc < Z.to_nat k)%nat.
Proof.
  intros Hk. unfold assign_doc.
  destruct (best_concept_among dv cvs wc (seq 1 (Z.to_nat k - 1)) 0
              (cosineSimilarity dv (nth 0 cvs []) wc)) as [->|H].
  - lia.
  - apply in_seq in H. lia.
Qed.

Lemma new_partitions_length (D cvs : list vec) (k dc wc : Z) :
  length (new_partitions D cvs k dc wc) = Z.to_nat k.
Proof.
  unfold new_partitions.
  change (length (distribute (fun i => assign_doc (nth i D []) cvs k wc)
                    (seq 0 (Z.to_nat dc)) (repeat [] (Z.to_nat k)))
          = Z.to_nat k).
  rewrite distribute_length. apply repeat_length.
Qed.

(** Partition [j] after the assignment step: the documents whose best
    concept is [j], in increasing order. *)
Lemma new_partitions_nth (D cvs : list vec) (k dc wc : Z) (j : nat) :
  (1 <= k)%Z ->
  nth j (new_partitions D cvs k dc wc) []
    = filter (fun i => Nat.eqb (assign_doc (nth i D []) cvs k wc) j)
             (seq 0 (Z.to_nat dc)).
Proof.
  intros Hk. unfold new_partitions.
  change (nth j (distribute (fun i => assign_doc (nth i D []) cvs k wc)
                   (seq 0 (Z.to_nat dc)) (repeat [] (Z.to_nat k))) []
          = filter (fun i => Nat.eqb (assign_doc (nth i D []) cvs k wc) j)
                   (seq 0 (Z.to_nat dc))).
  rewrite distribute_nth.
  - now rewrite nth_repeat_nil.
  - intros i _. rewrite repeat_length. now apply assign_doc_below.
Qed.

Lemma new_partitions_concat (D cvs : list vec) (k dc wc : Z) :
  (1 <= k)%Z ->
  Permutation (concat (new_partitions D cvs k dc wc)) (seq 0 (Z.to_nat dc)).
Proof.
  intros Hk. unfold new_partitions.
  eapply Permutation_trans.
  - apply (@distribute_concat (fun i => assign_doc (nth i D []) cvs k wc)).
    intros i _. rewrite repeat_length. now apply assign_doc_below.
  - now rewrite concat_repeat_nil.
Qed.

Lemma after_parameters (n : nat) (D : list vec) (st : LoopState) :
  cd_k (data (after n D st)) = cd_k (data st) /\
  cd_dc (data (after n D st)) = cd_dc (data st) /\
  cd_wc (data (after n D st)) = cd_wc (data st) /\
  iterations (after n D st) = (iterations st + Z.of_nat n)%Z.
Proof.
  induction n as [|n [Hk [Hdc [Hwc Hit]]]].
  - simpl. repeat split; lia.
  - cbn [after loop_body data cd_k cd_dc cd_wc iterations].
    repeat split; try assumption. lia.
Qed.

Lemma initial_well_partitioned (D : list vec) (k dc wc : Z) :
  (1 <= k <= dc)%Z ->
  well_partitioned k dc (data (initial_state D k dc wc)).
Proof.
  intros Hk. cbn [initial_state data partitions p_sizes].
  unfold well_partitioned. cbn [partitions p_sizes].
  assert (Hs : (0 <= dc / k)%Z) by (apply Z.div_pos; lia).
  assert (Hmul : (k * (dc / k) <= dc)%Z) by (apply Z.mul_div_le; lia).
  split; [apply first_partitioning_length|].
  destruct (Z.to_nat k) as [|n] eqn:Hn; [lia|]. split.
  - rewrite first_partitioning_concat by (try lia; nia).
    replace (Z.to_nat (1 - 1)) with 0%nat by lia.
    replace (Z.to_nat (dc - 1 + 1)) with (Z.to_nat dc) by lia.
    apply Permutation_refl.
  - apply first_partitioning_sizes; (lia || nia).
Qed.

Lemma loop_body_well_partitioned (D : list vec) (st : LoopState) :
  (1 <= cd_k (data st))%Z ->
  well_partitioned (cd_k (data st)) (cd_dc (data st))
                   (data (loop_body D st)).
Proof.
  intros Hk. unfold well_partitioned.
  cbn [loop_body data partitions p_sizes].
  split; [apply new_partitions_length|]. split; [|reflexivity].
  now apply new_partitions_concat.
Qed.

Lemma after_well_partitioned (n : nat) (D : list vec) (k dc wc : Z) :
  (1 <= k <= dc)%Z ->
  well_partitioned k dc (data (after n D (initial_state D k dc wc))).
Proof.
  intros Hk. destruct n as [|n].
  - now apply initial_well_partitioned.
  - cbn [after].
    destruct (after_parameters n D (initial_state D k dc wc))
      as [H1 [H2 _]].
    cbn [initial_state data cd_k cd_dc] in H1, H2.
    pose proof (@loop_body_well_partitioned D
                  (after n D (initial_state D k dc wc))) as H.
    rewrite H1, H2 in H. apply H. lia.
Qed.

End AssignmentAnyArith.

(** ** The loop *)

Section LoopAnyArith.

Context {F : Type} {A : Arith F}.

Lemma after_shift (n : nat) (D : list vec) (st : LoopState) :
  after (S n) D st = after n D (loop_body D st).
Proof.
  induction n as [|n IH]; [reflexivity|].
  change (after (S (S n)) D st) with (loop_body D (after (S n) D st)).
  now rewrite IH.
Qed.

(** Enough fuel lets the loop leave where its guard fails first. *)
Lemma spk_loop_leaves (n fuel : nat) (D : list vec) (st : LoopState) :
  leaves_after n D st -> (n < fuel)%nat ->
  spk_loop fuel D st = Some (after n D st).
Proof.
  revert fuel st. induction n as [|n IH]; intros fuel st [Hin Hout] Hf.
  - destruct fuel as [|fuel]; [lia|]. simpl in *. now rewrite Hout.
  - destruct fuel as [|fuel]; [lia|]. simpl spk_loop.
    pose proof (Hin 0%nat ltac:(lia)) as H0. cbn [after] in H0.
    rewrite H0, after_shift. apply IH; [|lia]. split.
    + intros m Hm. rewrite <- after_shift. apply Hin. lia.
    + now rewrite <- after_shift.
Qed.

(** A result of the loop is the state where the guard fails first. *)
Lemma spk_loop_result (fuel : nat) (D : list vec) (st st' : LoopState) :
  spk_loop fuel D st = Some st' ->
  exists n, (n < fuel)%nat /\ leaves_after n D st /\ st' = after n D st.
Proof.
  revert st. induction fuel as [|fuel IH]; intros st H; [discriminate|].
  simpl in H. destruct (f_gt (dQ st) Q_THRESHOLD) eqn:Hg.
  - destruct (IH _ H) as [n [Hn [[Hin Hout] Heq]]].
    exists (S n). split; [lia|]. split; [split|].
    + intros [|m] Hm; [exact Hg|]. rewrite after_shift. apply Hin. lia.
    + now rewrite after_shift.
    + now rewrite after_shift.
  - exists 0%nat. split; [lia|]. split; [split|].
    + intros m Hm. lia.
    + exact Hg.
    + now inversion H.
Qed.



End LoopAnyArith.

(** C5.  On entry to the loop ([n = 0]) and after each assignment step
    ([n] rounds of the loop), the [k] partitions hold the documents
    [0 .. dc-1] once each: their concatenation is a rearrangement of
    [0 .. dc-1], every document is in exactly one partition, and the
    recorded sizes add up to [dc]. *)
Theorem partitions_cover {F : Type} {A : Arith F}
    (D : list (list F)) (k dc wc : Z) (n : nat) :
  (1 <= k <= dc)%Z ->
  let d := data (after n D (initial_state D k dc wc)) in
  length (partitions d) = Z.to_nat k /\
  Permutation (concat (partitions d)) (seq 0 (Z.to_nat dc)) /\
  (forall x, (x < Z.to_nat dc)%nat ->
     exists i, (i < Z.to_nat k)%nat /\ In x (nth i (partitions d) []) /\
               forall j, In x (nth j (partitions d) []) -> j = i) /\
  total_size (p_sizes d) = dc.
Proof.
  intros Hk d.
  destruct (@after_well_partitioned F A n D k dc wc Hk) as [Hlen [Hperm Hsz]].
  fold d in Hlen, Hperm, Hsz.
  split; [exact Hlen|]. split; [exact Hperm|]. split.
  - intros x Hx. rewrite <- Hlen.
    now apply exactly_one_partition with (n := Z.to_nat dc).
  - rewrite Hsz, total_size_lengths.
    rewrite (Permutation_length Hperm), length_seq. lia.
Qed.

(** ** Consistency of the locals *)

Section ConsistencyAnyArith.

Context {F : Type} {A : Arith F}.

Lemma initial_consistent (D : list vec) (k dc wc : Z) :
  (1 <= k <= dc)%Z -> consistent D k dc wc (initial_state D k dc wc).
Proof.
  intros Hk. unfold consistent.
  split; [reflexivity|]. split; [reflexivity|]. split; [reflexivity|].
  split; [now apply initial_well_partitioned|].
  split; reflexivity.
Qed.

Lemma loop_body_consistent (D : list vec) (k dc wc : Z) (st : LoopState) :
  (1 <= k)%Z -> consistent D k dc wc st ->
  consistent D k dc wc (loop_body D st).
Proof.
  intros Hk [Hck [Hcdc [Hcwc _]]]. unfold consistent.
  cbn [loop_body data cd_k cd_dc cd_wc quality concepts partitions p_sizes].
  split; [assumption|]. split; [assumption|]. split; [assumption|].
  split.
  - pose proof (@loop_body_well_partitioned F A D st) as H.
    rewrite Hck, Hcdc in H. now apply H.
  - rewrite Hck, Hcdc, Hcwc. split; reflexivity.
Qed.

Lemma after_consistent (n : nat) (D : list vec) (k dc wc : Z) :
  (1 <= k <= dc)%Z ->
  consistent D k dc wc (after n D (initial_state D k dc wc)).
Proof.
  intros Hk. induction n as [|n IH].
  - now apply initial_consistent.
  - cbn [after]. apply loop_body_consistent; [lia|assumption].
Qed.

(** Slot [j] of each array of consistent locals. *)

End ConsistencyAnyArith.

(** ** Filters *)

Lemma filter_all {X : Type} (f : X -> bool) (l : list X) :
  (forall x, In x l -> f x = true) -> filter f l = l.
Proof.
  induction l as [|x l IH]; intros H; [reflexivity|].
  simpl. rewrite (H x) by now left. f_equal. apply IH. intros y Hy.
  apply H. now right.
Qed.

Lemma filter_none {X : Type} (f : X -> bool) (l : list X) :
  (forall x, In x l -> f x = false) -> filter f l = [].
Proof.
  induction l as [|x l IH]; intros H; [reflexivity|].
  simpl. rewrite (H x) by now left. apply IH. intros y Hy. apply H.
  now right.
Qed.

(** ** The order of the comparisons in binary32 *)

Lemma SFcompare_key (x y : spec_float) :
  Ieee.is_nan x = false -> Ieee.is_nan y = false ->
  (SFcompare x y = Some Lt <-> Ieee.key_lt (Ieee.key x) (Ieee.key y)) /\
  (SFcompare x y = Some Gt <-> Ieee.key_lt (Ieee.key y) (Ieee.key x)) /\
  (SFcompare x y <> None).
Proof.
  intros Hx Hy. unfold Ieee.key_lt.
  destruct x as [sx|sx| |sx mx ex], y as [sy|sy| |sy my ey];
    try discriminate;
    try (destruct sx); try (destruct sy); cbn; compare_cases; cbn;
    (split; [|split]; [split; intros Hc; (discriminate || lia || reflexivity)
                      |split; intros Hc; (discriminate || lia || reflexivity)
                      |discriminate]).
Qed.

(** *** Rounding never makes a NaN *)

Lemma shr_1_nonneg (mrs : shr_record) :
  (0 <= shr_m mrs)%Z -> (0 <= shr_m (shr_1 mrs))%Z.
Proof.
  destruct mrs as [m r s]. cbn [shr_m]. intros Hm.
  destruct m as [|p|p]; [cbn; lia| |lia].
  destruct p; cbn; lia.
Qed.

Lemma iter_shr_1_nonneg (p : positive) (mrs : shr_record) :
  (0 <= shr_m mrs)%Z -> (0 <= shr_m (iter_pos shr_1 p mrs))%Z.
Proof.
  revert mrs. induction p as [p IH|p IH|]; intros mrs Hm; cbn [iter_pos].
  - apply IH, IH, shr_1_nonneg, Hm.
  - apply IH, IH, Hm.
  - apply shr_1_nonneg, Hm.
Qed.

Lemma shr_fexp_nonneg (prec emax m e : Z) (l : location) :
  (0 <= m)%Z -> (0 <= shr_m (fst (shr_fexp prec emax m e l)))%Z.
Proof.
  intros Hm. unfold shr_fexp, shr.
  assert (H0 : (0 <= shr_m (shr_record_of_loc m l))%Z)
    by (destruct l as [|[| |]]; exact Hm).
  destruct (fexp prec emax (Zdigits2 m + e) - e)%Z; cbn [fst];
    [exact H0| |exact H0].
  now apply iter_shr_1_nonneg.
Qed.

Lemma round_nearest_even_nonneg (m : Z) (l : location) :
  (0 <= m)%Z -> (0 <= round_nearest_even m l)%Z.
Proof.
  intros Hm. destruct l as [|[| |]]; cbn; try lia.
  destruct (Z.even m); lia.
Qed.

Lemma binary_round_aux_not_nan (prec emax : Z) (sx : bool) (mx ex : Z)
    (lx : location) :
  (0 <= mx)%Z -> Ieee.is_nan (binary_round_aux prec emax sx mx ex lx) = false.
Proof.
  intros Hm. unfold binary_round_aux.
  pose proof (shr_fexp_nonneg prec emax ex lx Hm) as H1.
  destruct (shr_fexp prec emax mx ex lx) as [mrs' e']. cbn [fst] in H1.
  pose proof (@shr_fexp_nonneg prec emax
                (round_nearest_even (shr_m mrs') (loc_of_shr_record mrs'))
                e' loc_Exact (round_nearest_even_nonneg _ H1)) as H2.
  destruct (shr_fexp prec emax
              (round_nearest_even (shr_m mrs') (loc_of_shr_record mrs'))
              e' loc_Exact) as [mrs'' e''].
  cbn [fst] in H2.
  destruct (shr_m mrs'') as [|m|m]; [reflexivity| |lia].
  destruct (e'' <=? emax - prec)%Z; reflexivity.
Qed.

Lemma binary_normalize_not_nan (prec emax m e : Z) (szero : bool) :
  Ieee.is_nan (binary_normalize prec emax m e szero) = false.
Proof.
  destruct m as [|p|p]; cbn [binary_normalize]; [reflexivity| |];
    unfold binary_round;
    destruct (shl_align p e (fexp prec emax (Z.pos (digits2_pos p) + e)))
      as [mz ez];
    apply binary_round_aux_not_nan; lia.
Qed.

Lemma widen_nan (x : spec_float) : Ieee.is_nan (Ieee.widen x) = Ieee.is_nan x.
Proof.
  destruct x as [s|s| |s m e]; try reflexivity.
  cbn [Ieee.widen Ieee.is_nan]. apply binary_normalize_not_nan.
Qed.

(** *** The comparisons of C on binary32 numbers *)

Lemma gt_iff (a b : spec_float) :
  Ieee.gt a b = true <->
  Ieee.is_nan a = false /\ Ieee.is_nan b = false /\ Ieee.key_lt (Ieee.rank b) (Ieee.rank a).
Proof.
  unfold Ieee.gt, SFltb, Ieee.rank.
  destruct (Ieee.is_nan a) eqn:Ha.
  - destruct a; try discriminate. cbn [Ieee.widen].
    replace (SFcompare (Ieee.widen b) S754_nan) with (@None comparison)
      by (destruct (Ieee.widen b); reflexivity).
    split; [discriminate|intros [H _]; discriminate].
  - destruct (Ieee.is_nan b) eqn:Hb.
    + destruct b; try discriminate. cbn.
      split; [discriminate|intros [_ [H _]]; discriminate].
    + assert (Ha' : Ieee.is_nan (Ieee.widen a) = false) by now rewrite widen_nan.
      assert (Hb' : Ieee.is_nan (Ieee.widen b) = false) by now rewrite widen_nan.
      destruct (SFcompare_key _ _ Hb' Ha') as [H1 _]. split.
      * intros H. split; [reflexivity|]. split; [reflexivity|].
        apply H1.
        destruct (SFcompare (Ieee.widen b) (Ieee.widen a)) as [[| |]|];
          (reflexivity || discriminate).
      * intros [_ [_ H]]. apply H1 in H. now rewrite H.
Qed.

Lemma le_iff (a b : spec_float) :
  Ieee.le a b = true <->
  Ieee.is_nan a = false /\ Ieee.is_nan b = false /\ ~ Ieee.key_lt (Ieee.rank b) (Ieee.rank a).
Proof.
  unfold Ieee.le, SFleb, Ieee.rank.
  destruct (Ieee.is_nan a) eqn:Ha.
  - destruct a; try discriminate. cbn.
    split; [discriminate|intros [H _]; discriminate].
  - destruct (Ieee.is_nan b) eqn:Hb.
    + destruct b; try discriminate. cbn [Ieee.widen].
      replace (SFcompare (Ieee.widen a) S754_nan) with (@None comparison)
        by (destruct (Ieee.widen a); reflexivity).
      split; [discriminate|intros [_ [H _]]; discriminate].
    + assert (Ha' : Ieee.is_nan (Ieee.widen a) = false) by now rewrite widen_nan.
      assert (Hb' : Ieee.is_nan (Ieee.widen b) = false) by now rewrite widen_nan.
      destruct (SFcompare_key _ _ Ha' Hb') as [_ [H2 H3]]. split.
      * intros H. split; [reflexivity|]. split; [reflexivity|].
        intros Hlt. apply H2 in Hlt. rewrite Hlt in H. discriminate.
      * intros [_ [_ H]].
        destruct (SFcompare (Ieee.widen a) (Ieee.widen b)) as [[| |]|];
          try reflexivity.
        -- exfalso. apply H, H2. reflexivity.
        -- exfalso. now apply H3.
Qed.

Lemma gt_false_le (a b : spec_float) :
  Ieee.is_nan a = false -> Ieee.is_nan b = false ->
  Ieee.gt a b = false <-> Ieee.le a b = true.
Proof.
  intros Ha Hb. rewrite le_iff. split.
  - intros H. split; [assumption|]. split; [assumption|].
    intros Hlt. assert (Ieee.gt a b = true) by (apply gt_iff; auto).
    congruence.
  - intros [_ [_ H]]. destruct (Ieee.gt a b) eqn:Hg; [|reflexivity].
    apply gt_iff in Hg. destruct Hg as [_ [_ Hg]]. contradiction.
Qed.

Lemma key_lt_trans (a b c : Z * Z * Z) :
  Ieee.key_lt a b -> Ieee.key_lt b c -> Ieee.key_lt a c.
Proof. unfold Ieee.key_lt. lia. Qed.

Lemma key_lt_cotrans (a b c : Z * Z * Z) :
  Ieee.key_lt a b -> Ieee.key_lt a c \/ Ieee.key_lt c b.
Proof. unfold Ieee.key_lt. lia. Qed.

Lemma key_lt_asym (a b : Z * Z * Z) : Ieee.key_lt a b -> ~ Ieee.key_lt b a.
Proof. unfold Ieee.key_lt. lia. Qed.

Lemma gt_trans (a b c : spec_float) :
  Ieee.gt a b = true -> Ieee.gt b c = true -> Ieee.gt a c = true.
Proof.
  rewrite !gt_iff. intros [Ha [Hb H1]] [_ [Hc H2]].
  repeat split; try assumption. eapply key_lt_trans; eassumption.
Qed.

Lemma gt_cotrans (a b c : spec_float) :
  Ieee.is_nan c = false -> Ieee.gt a b = true ->
  Ieee.gt a c = true \/ Ieee.gt c b = true.
Proof.
  rewrite !gt_iff. intros Hc [Ha [Hb H]].
  destruct (key_lt_cotrans (Ieee.rank c) H) as [H1 | H1]; [right|left];
    repeat split; assumption.
Qed.

Lemma gt_asym (a b : spec_float) :
  Ieee.gt a b = true -> Ieee.gt b a = false.
Proof.
  intros H. destruct (Ieee.gt b a) eqn:Hg; [|reflexivity].
  apply gt_iff in H, Hg. destruct H as [_ [_ H]], Hg as [_ [_ Hg]].
  exfalso. eapply key_lt_asym; eassumption.
Qed.

(** ** Control of the loop *)

(** The guard of the loop fails on a [dQ] that is at most the threshold
    and on a NaN, and on nothing else. *)
Lemma guard_fails_iff (d : spec_float) :
  Ieee.gt d Ieee.threshold = false <->
  Ieee.le d Ieee.threshold = true \/ d = S754_nan.
Proof.
  assert (Ht : Ieee.is_nan Ieee.threshold = false) by (vm_compute; reflexivity).
  destruct (Ieee.is_nan d) eqn:Hd.
  - destruct d; try discriminate. split; [now right|reflexivity].
  - rewrite (gt_false_le d Ieee.threshold Hd Ht). split; [now left|].
    intros [H | ->]; [exact H|discriminate].
Qed.

(** C1, counterexample.  On [nan_exit_documents] with [k = 3] the first
    round leaves the third partition empty: its concept vector, the
    quality and [dQ] are NaN, and the loop leaves after that round
    although its [dQ] is not [<= 0.001]. *)
Lemma loop_leaves_on_nan :
  exists st,
    runSPKMeans_locals (A := ieee_arith) 3 (Ieee.matrix nan_exit_documents)
                       3 4 2 = Some st /\
    iterations st = 1%Z /\
    partitions (data st) = [[0; 2]; [1; 3]; []]%nat /\
    dQ st = S754_nan /\
    Ieee.gt (dQ st) Ieee.threshold = false /\
    Ieee.le (dQ st) Ieee.threshold = false.
Proof.
  eexists. split; [vm_compute; reflexivity|].
  repeat split; vm_compute; reflexivity.
Qed.

(** C1, as amended.  In every run with [k >= 1]: [dQ] is above 0.001 on
    entry, so the body is executed at least once; from any state the
    body is executed again exactly when [dQ > 0.001], and otherwise the
    loop is left with that state; the guard fails exactly on a [dQ] that
    is [<= 0.001] or a NaN; if round [n >= 1] is the first after which
    it fails, the run, given enough fuel, leaves with the state after
    exactly [n] rounds and [iterations = n]; and whatever a run returns
    is such a state.  IEEE binary32. *)
Theorem loop_control (raw : list (list spec_float)) (k dc wc : Z) :
  (1 <= k)%Z ->
  let D := txnScheme (A := ieee_arith) raw dc wc in
  let st0 := initial_state (A := ieee_arith) D k dc wc in
  Ieee.gt (dQ st0) Ieee.threshold = true /\
  (forall fuel st,
     (Ieee.gt (dQ st) Ieee.threshold = true ->
      spk_loop (A := ieee_arith) (S fuel) D st
      = spk_loop fuel D (loop_body D st)) /\
     (Ieee.gt (dQ st) Ieee.threshold = false ->
      spk_loop (A := ieee_arith) (S fuel) D st = Some st)) /\
  (forall d, Ieee.gt d Ieee.threshold = false <->
             Ieee.le d Ieee.threshold = true \/ d = S754_nan) /\
  (forall n fuel,
     (1 <= n)%nat ->
     (forall m, (1 <= m < n)%nat ->
        Ieee.gt (dQ (after m D st0)) Ieee.threshold = true) ->
     Ieee.gt (dQ (after n D st0)) Ieee.threshold = false ->
     (n < fuel)%nat ->
     runSPKMeans_locals (A := ieee_arith) fuel raw k dc wc
     = Some (after n D st0) /\
     iterations (after n D st0) = Z.of_nat n) /\
  (forall fuel st,
     runSPKMeans_locals (A := ieee_arith) fuel raw k dc wc = Some st ->
     exists n, (1 <= n < fuel)%nat /\ st = after n D st0 /\
               iterations st = Z.of_nat n /\
               (Ieee.le (dQ st) Ieee.threshold = true \/ dQ st = S754_nan) /\
               forall m, (1 <= m < n)%nat ->
                 Ieee.gt (dQ (after m D st0)) Ieee.threshold = true).
Proof.
  intros _ D st0.
  assert (H0 : Ieee.gt (dQ st0) Ieee.threshold = true)
    by (unfold st0; cbn [initial_state dQ]; vm_compute; reflexivity).
  assert (Hit : forall n, iterations (after n D st0) = Z.of_nat n).
  { intros n. destruct (after_parameters n D st0) as [_ [_ [_ H]]].
    rewrite H. unfold st0. cbn [initial_state iterations]. lia. }
  split; [exact H0|]. split; [|split; [exact guard_fails_iff|split]].
  - intros fuel st. split; intros H; cbn [spk_loop];
      change (f_gt (Arith := ieee_arith) (dQ st) Q_THRESHOLD)
        with (Ieee.gt (dQ st) Ieee.threshold); now rewrite H.
  - intros n fuel Hn Hbefore Hat Hfuel. split; [|apply Hit].
    unfold runSPKMeans_locals. fold D. fold st0.
    apply spk_loop_leaves; [|assumption]. split.
    + intros m Hm. destruct m as [|m]; [exact H0|]. apply Hbefore. lia.
    + exact Hat.
  - intros fuel st Hres. unfold runSPKMeans_locals in Hres.
    fold D in Hres. fold st0 in Hres.
    destruct (spk_loop_result _ _ _ Hres) as [n [Hn [[Hin Hout] Heq]]].
    exists n.
    assert (Hpos : (1 <= n)%nat).
    { destruct n as [|n]; [|lia]. cbn [after] in Hout.
      change (f_gt (Arith := ieee_arith) (dQ st0) Q_THRESHOLD)
        with (Ieee.gt (dQ st0) Ieee.threshold) in Hout.
      congruence. }
    split; [lia|]. split; [exact Heq|]. split; [subst st; apply Hit|].
    split.
    + subst st. apply guard_fails_iff. exact Hout.
    + intros m Hm. apply Hin. lia.
Qed.

Lemma loop_control_witness :
  let D := txnScheme (A := ieee_arith) (Ieee.matrix cone_documents) 4 2 in
  Ieee.gt (dQ (initial_state (A := ieee_arith) D 2 4 2)) Ieee.threshold
  = true.
Proof.
  refine (proj1 (@loop_control (Ieee.matrix cone_documents) 2 4 2 _)). lia.
Defined.

(** ** The first maximum *)

Section FirstMaximum.

Context {F : Type} {A : Arith F}.

(** What the inner loop of the assignment step needs of the comparison
    [>]: it is a strict order, and a value [c] that can be compared
    ([ok c]: in binary32, not a NaN) lies below the greater or above
    the smaller of two values in this order. *)
Variable ok : F -> Prop.
Hypothesis gt_irrefl : forall a, f_gt a a = false.
Hypothesis gt_trans : forall a b c,
  f_gt a b = true -> f_gt b c = true -> f_gt a c = true.
Hypothesis gt_cotrans : forall a b c,
  ok c -> f_gt a b = true -> f_gt a c = true \/ f_gt c b = true.

Variables (dv : @vec F) (cvs : list (@vec F)) (wc : Z).

Local Abbreviation sim j := (cosineSimilarity dv (nth j cvs []) wc).

Lemma best_concept_first_maximum (len a c : nat) :
  (forall j, (j < a + len)%nat -> ok (sim j)) ->
  (c < a)%nat ->
  (forall j, (j < a)%nat -> f_gt (sim j) (sim c) = false) ->
  (forall j, (j < c)%nat -> f_gt (sim c) (sim j) = true) ->
  let r := best_concept dv cvs wc (seq a len) c (sim c) in
  (r < a + len)%nat /\
  (forall j, (j < a + len)%nat -> f_gt (sim j) (sim r) = false) /\
  (forall j, (j < r)%nat -> f_gt (sim r) (sim j) = true).
Proof.
  cbv zeta. revert a c.
  induction len as [|len IH]; intros a c Hok Hc Hmax Hfirst.
  - cbn. rewrite Nat.add_0_r. repeat split; (assumption || lia).
  - cbn [seq best_concept].
    replace (a + S len)%nat with (S a + len)%nat in * by lia.
    destruct (f_gt (sim a) (sim c)) eqn:Hg.
    + apply IH; [assumption|lia| |].
      * intros j Hj. destruct (Nat.eq_dec j a) as [-> | Hne];
          [apply gt_irrefl|].
        destruct (f_gt (sim j) (sim a)) eqn:Hja; [|reflexivity].
        rewrite <- (Hmax j ltac:(lia)). symmetry.
        eapply gt_trans; eassumption.
      * intros j Hj.
        destruct (@gt_cotrans (sim a) (sim c) (sim j)) as [H | H];
          [apply Hok; lia|assumption|assumption|].
        rewrite Hmax in H by assumption. discriminate.
    + apply IH; [assumption|lia| |assumption].
      intros j Hj. destruct (Nat.eq_dec j a) as [-> | Hne]; [assumption|].
      apply Hmax. lia.
Qed.

Lemma assign_doc_first_maximum (k : Z) :
  (1 <= k)%Z ->
  (forall j, (j < Z.to_nat k)%nat -> ok (sim j)) ->
  let r := assign_doc dv cvs k wc in
  (r < Z.to_nat k)%nat /\
  (forall j, (j < Z.to_nat k)%nat -> f_gt (sim j) (sim r) = false) /\
  (forall j, (j < r)%nat -> f_gt (sim r) (sim j) = true).
Proof.
  intros Hk Hok. unfold assign_doc. cbv zeta.
  pose proof (@best_concept_first_maximum (Z.to_nat k - 1)%nat 1%nat 0%nat)
    as H.
  cbv zeta in H.
  replace (1 + (Z.to_nat k - 1))%nat with (Z.to_nat k) in H by lia.
  apply H.
  - assumption.
  - lia.
  - intros j Hj. replace j with 0%nat by lia. apply gt_irrefl.
  - intros j Hj. lia.
Qed.

End FirstMaximum.

Lemma gt_irrefl (a : spec_float) : Ieee.gt a a = false.
Proof.
  destruct (Ieee.gt a a) eqn:H; [|reflexivity].
  pose proof (gt_asym _ _ H). congruence.
Qed.

Lemma first_maximum_unique (k : nat) (sim : nat -> spec_float) (i j : nat) :
  first_maximum k sim i -> first_maximum k sim j -> i = j.
Proof.
  intros [Hi [Hmi Hfi]] [Hj [Hmj Hfj]].
  destruct (Nat.lt_trichotomy i j) as [H|[H|H]]; [|assumption|].
  - specialize (Hfj i H). specialize (Hmi j Hj).
    apply le_iff in Hmi. apply gt_iff in Hfj.
    destruct Hmi as [_ [_ Hmi]], Hfj as [_ [_ Hfj]]. contradiction.
  - specialize (Hfi j H). specialize (Hmj i Hi).
    apply le_iff in Hmj. apply gt_iff in Hfi.
    destruct Hmj as [_ [_ Hmj]], Hfi as [_ [_ Hfi]]. contradiction.
Qed.

(** C2, counterexample.  Document 1 of [zero_first_documents] has
    similarity NaN with the concept vector of partition 0 (which holds
    the zero document) and about 0.7071 with that of partition 1; no
    comparison with a NaN succeeds, and the assignment step puts it in
    partition 0, which is not a partition of maximal similarity. *)
Lemma assignment_keeps_nan_similarity :
  let D := txnScheme (A := ieee_arith) (Ieee.matrix zero_first_documents)
                     3 2 in
  let cvs := concepts (data (initial_state (A := ieee_arith) D 2 3 2)) in
  let sim := fun j => cosineSimilarity (A := ieee_arith)
                        (nth 1%nat D []) (nth j cvs []) 2 in
  new_partitions (A := ieee_arith) D cvs 2 3 2 = [[0; 1; 2]; []]%nat /\
  In 1%nat (nth 0%nat (new_partitions (A := ieee_arith) D cvs 2 3 2) []) /\
  sim 0%nat = S754_nan /\
  sim 1%nat = S754_finite false 11863284 (-24) /\
  Ieee.le (sim 1%nat) (sim 0%nat) = false /\
  ~ first_maximum 2 sim 0%nat.
Proof.
  intros D cvs sim.
  assert (H0 : sim 0%nat = S754_nan) by (vm_compute; reflexivity).
  assert (H1 : sim 1%nat = S754_finite false 11863284 (-24))
    by (vm_compute; reflexivity).
  assert (Hle : Ieee.le (sim 1%nat) (sim 0%nat) = false)
    by (rewrite H0, H1; vm_compute; reflexivity).
  split; [vm_compute; reflexivity|].
  split; [vm_compute; auto|].
  split; [exact H0|]. split; [exact H1|]. split; [exact Hle|].
  intros [_ [Hmax _]]. specialize (Hmax 1%nat ltac:(lia)). congruence.
Qed.

(** C2, as amended.  In an assignment step over [k >= 1] concept
    vectors, a document [i < dc] none of whose [k] similarities is a NaN
    is put in partition [j] exactly when [j] is the lowest index below
    [k] at which its similarity is maximal: every similarity is [<=]
    that with concept [j], and that with concept [j] is [>] every one of
    lower index.  IEEE binary32. *)
Theorem assignment_first_maximum (D cvs : list (list spec_float))
    (k dc wc : Z) (i j : nat) :
  (1 <= k)%Z -> (i < Z.to_nat dc)%nat ->
  (forall j', (j' < Z.to_nat k)%nat ->
     Ieee.is_nan (cosineSimilarity (A := ieee_arith)
                    (nth i D []) (nth j' cvs []) wc) = false) ->
  In i (nth j (new_partitions (A := ieee_arith) D cvs k dc wc) []) <->
  first_maximum (Z.to_nat k)
    (fun j' => cosineSimilarity (A := ieee_arith)
                 (nth i D []) (nth j' cvs []) wc) j.
Proof.
  intros Hk Hi Hnan. rewrite new_partitions_nth by assumption.
  rewrite filter_In, in_seq, Nat.eqb_eq.
  set (sim := fun j' => cosineSimilarity (A := ieee_arith)
                          (nth i D []) (nth j' cvs []) wc) in *.
  assert (Hmax : first_maximum (Z.to_nat k) sim
                   (assign_doc (A := ieee_arith) (nth i D []) cvs k wc)).
  { destruct (@assign_doc_first_maximum spec_float ieee_arith
                (fun x => Ieee.is_nan x = false) gt_irrefl gt_trans
                (fun a b c Hc Hab => gt_cotrans a b c Hc Hab)
                (nth i D []) cvs wc k Hk Hnan) as [Hr [Hm Hf]].
    split; [exact Hr|]. split; [|exact Hf].
    intros j' Hj'. apply gt_false_le.
    - now apply Hnan.
    - now apply Hnan.
    - change (f_gt (Arith := ieee_arith) (sim j')
                (sim (assign_doc (A := ieee_arith) (nth i D []) cvs k wc))
              = false).
      now apply Hm. }
  split.
  - intros [_ <-]. exact Hmax.
  - intros Hj. split; [lia|].
    eapply first_maximum_unique; eassumption.
Qed.

Lemma assignment_first_maximum_witness :
  let D := txnScheme (A := ieee_arith) (Ieee.matrix cone_documents) 4 2 in
  let cvs := concepts (data (initial_state (A := ieee_arith) D 2 4 2)) in
  In 3%nat (nth 1%nat (new_partitions (A := ieee_arith) D cvs 2 4 2) []) <->
  first_maximum (Z.to_nat 2)
    (fun j' => cosineSimilarity (A := ieee_arith)
                 (nth 3%nat D []) (nth j' cvs []) 2) 1%nat.
Proof.
  apply (@assignment_first_maximum
           (txnScheme (A := ieee_arith) (Ieee.matrix cone_documents) 4 2)
           (concepts (data (initial_state (A := ieee_arith)
              (txnScheme (A := ieee_arith) (Ieee.matrix cone_documents) 4 2)
              2 4 2)))
           2 4 2 3%nat 1%nat).
  - lia.
  - vm_compute. lia.
  - intros j' Hj'.
    assert (j' = 0 \/ j' = 1)%nat as [-> | ->] by (vm_compute in Hj'; lia);
      vm_compute; reflexivity.
Defined.

(** ** Concept vectors *)





(** ** The gain of a round *)




(** ** Similarities and dot products *)

Section DotProductAnyArith.

Context {F : Type} {A : Arith F}.




End DotProductAnyArith.




(** ** Runs in binary32 *)

Local Open Scope Z_scope.

(** C8, counterexample.  With [six_documents] and [k = 3] the loop leaves
    after its first round, whose [dQ] is 15712256 * 2^-34 (about 0.00091,
    [<= 0.001]); one more round on the state that is returned moves
    document 1 to the third partition and has [dQ] 10865920 * 2^-28 (about
    0.0405, [> 0.001]). *)
Lemma one_more_round_exceeds_threshold :
  let D := txnScheme (A := ieee_arith) (Ieee.matrix six_documents) 6 2 in
  exists st,
    runSPKMeans_locals (A := ieee_arith) 4 (Ieee.matrix six_documents) 3 6 2
      = Some st /\
    iterations st = 1 /\
    partitions (data st) = [[0; 1]; [2; 3; 4]; [5]]%nat /\
    dQ st = S754_finite false 15712256 (-34) /\
    Ieee.le (dQ st) Ieee.threshold = true /\
    partitions (data (loop_body (A := ieee_arith) D st))
      = [[0]; [2; 3; 4]; [1; 5]]%nat /\
    dQ (loop_body (A := ieee_arith) D st) = S754_finite false 10865920 (-28) /\
    Ieee.le (dQ (loop_body (A := ieee_arith) D st)) Ieee.threshold = false /\
    Ieee.gt (dQ (loop_body (A := ieee_arith) D st)) Ieee.threshold = true.
Proof.
  intros D.
  exists (loop_body (A := ieee_arith) D
            (initial_state (A := ieee_arith) D 3 6 2)).
  repeat split; vm_compute; reflexivity.
Qed.

(** C9, counterexample.  [txnScheme] on a matrix whose only row is all
    zeros returns, with nothing reported, the row with a NaN in each
    cell; and the run that follows returns cluster data whose concept
    vector is made of NaNs. *)
Lemma zero_document_becomes_nan :
  txnScheme (A := ieee_arith) (Ieee.matrix zero_document) 1 2
    = [[S754_nan; S754_nan]] /\
  runSPKMeans (A := ieee_arith) 2 (Ieee.matrix zero_document) 1 1 2
    = Some (mkClusterData 1 1 2 [[0%nat]] [1] [[S754_nan; S754_nan]]).
Proof. split; vm_compute; reflexivity. Qed.


(** ** What a run returns *)



(** ** Zero documents in binary32 *)

Lemma map_all_equal {X Y : Type} (g : X -> Y) (c : Y) (l : list X) :
  (forall x, In x l -> g x = c) -> map g l = repeat c (length l).
Proof.
  induction l as [|x l IH]; intros H; simpl; [reflexivity|].
  rewrite (H x) by now left. f_equal. apply IH. intros y Hy. apply H.
  now right.
Qed.

Lemma accumulate_zero_squares (a : list spec_float) (n : nat) :
  (forall t, (t < n)%nat -> Ieee.is_zero (at_ (A := ieee_arith) a t) = true) ->
  accumulate (A := ieee_arith) n
    (fun t => f_mul (Arith := ieee_arith)
                (at_ (A := ieee_arith) a t) (at_ (A := ieee_arith) a t))
  = S754_zero false.
Proof.
  intros Hz. unfold accumulate.
  induction n as [|n IH]; [reflexivity|].
  rewrite seq_S, fold_left_app, IH by (intros t Ht; apply Hz; lia).
  cbn [fold_left Nat.add].
  specialize (Hz n (Nat.lt_succ_diag_r n)).
  destruct (at_ (A := ieee_arith) a n) as [s| | |s m e];
    try discriminate.
  destruct s; reflexivity.
Qed.

(** C9, as amended.  [txnScheme] reports nothing: for every matrix, a
    document [i < dc] whose [wc] weights are all zero comes out of the
    normalization pass as a row of [wc] NaNs, each weight having been
    divided by the norm 0.  IEEE binary32. *)
Theorem txnScheme_zero_document (doc_matrix : list (list spec_float))
    (dc wc : Z) (i : nat) :
  (i < Z.to_nat dc)%nat ->
  (forall t, (t < Z.to_nat wc)%nat ->
     Ieee.is_zero (at_ (A := ieee_arith) (nth i doc_matrix []) t) = true) ->
  vec_norm (A := ieee_arith) (nth i doc_matrix []) wc = S754_zero false /\
  nth i (txnScheme (A := ieee_arith) doc_matrix dc wc) []
    = repeat S754_nan (Z.to_nat wc).
Proof.
  intros Hi Hz.
  assert (Hnorm : vec_norm (A := ieee_arith) (nth i doc_matrix []) wc
                  = S754_zero false).
  { unfold vec_norm, vec_dot. now rewrite accumulate_zero_squares. }
  split; [exact Hnorm|].
  unfold txnScheme.
  rewrite nth_indep with
    (d' := vec_normalize (A := ieee_arith) (nth 0%nat doc_matrix []) wc)
    by now rewrite length_map, length_seq.
  rewrite (map_nth (fun i => vec_normalize (A := ieee_arith)
                               (nth i doc_matrix []) wc)
                   (seq 0 (Z.to_nat dc)) 0%nat).
  rewrite seq_nth by assumption. cbn [Nat.add].
  unfold vec_normalize. rewrite Hnorm. unfold vec_divide, tabulate.
  replace (repeat S754_nan (Z.to_nat wc))
    with (repeat S754_nan (length (seq 0 (Z.to_nat wc))))
    by now rewrite length_seq.
  apply map_all_equal. intros t Ht. apply in_seq in Ht.
  specialize (Hz t ltac:(lia)).
  destruct (at_ (A := ieee_arith) (nth i doc_matrix []) t)
    as [s| | |s m e]; try discriminate. reflexivity.
Qed.

Lemma txnScheme_zero_document_witness :
  nth 0%nat (txnScheme (A := ieee_arith) (Ieee.matrix zero_document) 1 2) []
    = repeat S754_nan (Z.to_nat 2).
Proof.
  apply (@txnScheme_zero_document (Ieee.matrix zero_document) 1 2 0%nat).
  - vm_compute. lia.
  - intros t Ht.
    assert (t = 0 \/ t = 1)%nat as [-> | ->] by (vm_compute in Ht; lia);
      reflexivity.
Defined.

(** ** One more round at a fixed point *)

Lemma loop_body_fixed {F : Type} {A : Arith F} (D : list (@vec F))
    (k dc wc : Z) (st : LoopState) :
  consistent D k dc wc st ->
  new_partitions D (concepts (data st)) k dc wc = partitions (data st) ->
  data (loop_body D st) = data st /\
  quality (loop_body D st) = quality st /\
  dQ (loop_body D st) = f_sub (quality st) (quality st).
Proof.
  intros [Hk [Hdc [Hwc [[_ [_ Hsz]] [Hcv Hq]]]]] Hfix.
  assert (Hdata : data (loop_body D st) = data st).
  { cbn [loop_body data]. rewrite Hk, Hdc, Hwc, Hfix, <- Hsz, <- Hcv.
    destruct (data st); cbn in *; congruence. }
  split; [exact Hdata|].
  assert (Hquality : quality (loop_body D st) = quality st).
  { rewrite Hq, <- Hdata. reflexivity. }
  split; [exact Hquality|].
  change (dQ (loop_body D st))
    with (f_sub (quality (loop_body D st)) (quality st)).
  now rewrite Hquality.
Qed.

Local Close Scope Z_scope.

(** ** One more round at a fixed point, in binary32 *)

Lemma ieee_difference_not_above_threshold (q : spec_float) :
  Ieee.gt (SFsub Ieee.prec Ieee.emax q q) Ieee.threshold = false.
Proof.
  destruct q as [s|s| |s m e].
  - destruct s; reflexivity.
  - destruct s; reflexivity.
  - reflexivity.
  - unfold SFsub. rewrite Z.sub_diag. reflexivity.
Qed.

Lemma ieee_difference_zero_or_nan (q : spec_float) :
  SFsub Ieee.prec Ieee.emax q q = S754_zero false \/
  SFsub Ieee.prec Ieee.emax q q = S754_nan.
Proof.
  destruct q as [s|s| |s m e].
  - left. destruct s; reflexivity.
  - right. destruct s; reflexivity.
  - now right.
  - left. unfold SFsub. rewrite Z.sub_diag. reflexivity.
Qed.

(** C8, as amended.  For every run with [1 <= k <= dc] that has left
    the loop (its final [dQ] is not above 0.001) and whose returned
    partitions are reproduced by one more assignment step, one more
    round recomputes the same cluster data and the same quality, so its
    [dQ] is the quality minus itself: 0, or a NaN when the quality is an
    infinity or a NaN, and in both cases not above 0.001.  IEEE
    binary32. *)
Theorem one_more_round_at_fixed_point (doc_matrix : list (list spec_float))
    (k dc wc : Z) (fuel : nat) (st : LoopState) :
  (1 <= k <= dc)%Z ->
  let D := txnScheme (A := ieee_arith) doc_matrix dc wc in
  runSPKMeans_locals (A := ieee_arith) fuel doc_matrix k dc wc = Some st ->
  new_partitions D (concepts (data st)) k dc wc = partitions (data st) ->
  Ieee.gt (dQ st) Ieee.threshold = false /\
  data (loop_body D st) = data st /\
  quality (loop_body D st) = quality st /\
  dQ (loop_body D st)
  = SFsub Ieee.prec Ieee.emax (quality st) (quality st) /\
  (dQ (loop_body D st) = S754_zero false \/
   dQ (loop_body D st) = S754_nan) /\
  Ieee.gt (dQ (loop_body D st)) Ieee.threshold = false.
Proof.
  intros Hk D Hrun Hfix. unfold runSPKMeans_locals in Hrun. fold D in Hrun.
  destruct (spk_loop_result _ _ _ Hrun) as [n [_ [[_ Hout] Heq]]].
  assert (Hcons : consistent D k dc wc st)
    by (subst st; now apply after_consistent).
  destruct (loop_body_fixed Hcons Hfix) as [Hdata [Hq HdQ]].
  split; [rewrite Heq; exact Hout|]. split; [exact Hdata|].
  split; [exact Hq|]. split; [exact HdQ|].
  rewrite HdQ. split.
  - apply ieee_difference_zero_or_nan.
  - apply ieee_difference_not_above_threshold.
Qed.

Lemma one_more_round_at_fixed_point_witness :
  let D := txnScheme (A := ieee_arith) (Ieee.matrix axis_documents) 2 2 in
  let st := after 1 D (initial_state (A := ieee_arith) D 2 2 2) in
  runSPKMeans_locals (A := ieee_arith) 2 (Ieee.matrix axis_documents) 2 2 2
  = Some st /\
  partitions (data st) = [[0]; [1]]%nat /\
  data (loop_body D st) = data st /\
  dQ (loop_body D st) = S754_zero false.
Proof.
  intros D st.
  assert (Hk : (1 <= 2 <= 2)%Z) by lia.
  assert (Hrun : runSPKMeans_locals (A := ieee_arith) 2
                   (Ieee.matrix axis_documents) 2 2 2 = Some st)
    by (vm_compute; reflexivity).
  assert (Hfix : new_partitions D (concepts (data st)) 2 2 2
                 = partitions (data st))
    by (vm_compute; reflexivity).
  destruct (@one_more_round_at_fixed_point (Ieee.matrix axis_documents)
              2 2 2 2%nat st Hk Hrun Hfix) as [_ [Hdata [_ [HdQ _]]]].
  split; [exact Hrun|]. split; [vm_compute; reflexivity|].
  split; [exact Hdata|].
  etransitivity; [exact HdQ|vm_compute; reflexivity].
Defined.

(** ** Instances of the theorems *)

Lemma partitions_cover_witness :
  total_size
    (p_sizes (data (after 1 (Ieee.matrix cone_documents)
                      (initial_state (A := ieee_arith)
                         (Ieee.matrix cone_documents) 2 4 2)))) = 4%Z.
Proof.
  apply (@partitions_cover _ ieee_arith (Ieee.matrix cone_documents)
           2 4 2 1%nat).
  lia.
Defined.

(** * Further properties of the engine *)

(** ** The similarity of two vectors *)

Lemma SFmul_comm (prec emax : Z) (x y : spec_float) :
  SFmul prec emax x y = SFmul prec emax y x.
Proof.
  destruct x as [sx|sx| |sx mx ex], y as [sy|sy| |sy my ey]; cbn;
    try reflexivity; try (now rewrite xorb_comm).
  now rewrite xorb_comm, Pos.mul_comm, Z.add_comm.
Qed.

Lemma accumulate_ext {F : Type} {A : Arith F} (n : nat) (f g : nat -> F) :
  (forall i, (i < n)%nat -> f i = g i) -> accumulate n f = accumulate n g.
Proof.
  intros H. unfold accumulate.
  induction n as [|n IH]; [reflexivity|].
  rewrite !seq_S, !fold_left_app, IH by (intros i Hi; apply H; lia).
  cbn [fold_left Nat.add]. now rewrite H by lia.
Qed.

Lemma ieee_vec_dot_comm (a b : list spec_float) (n : Z) :
  vec_dot (A := ieee_arith) a b n = vec_dot (A := ieee_arith) b a n.
Proof.
  unfold vec_dot. apply accumulate_ext. intros i _. apply SFmul_comm.
Qed.

(** X3.  The similarity of two vectors does not depend on their order:
    [cosineSimilarity] returns the same number, NaN included, when its
    two vectors are exchanged.  IEEE binary32. *)
Theorem cosineSimilarity_symmetric (dv cv : list spec_float) (wc : Z) :
  cosineSimilarity (A := ieee_arith) dv cv wc
  = cosineSimilarity (A := ieee_arith) cv dv wc.
Proof.
  unfold cosineSimilarity. rewrite (ieee_vec_dot_comm dv cv).
  f_equal. apply SFmul_comm.
Qed.

(** * Showing the results *)

Section DisplayAnyArith.

Context {F : Type} {A : Arith F}.

Lemma greatest_among (cur : F * nat) (q : list (F * nat)) :
  greatest cur q = cur \/ In (greatest cur q) q.
Proof.
  revert cur. induction q as [|x q IH]; intros cur; [now left|].
  cbn [greatest].
  destruct (IH (if pair_lt cur x then x else cur)) as [H|H].
  - rewrite H. destruct (pair_lt cur x); [right; now left|now left].
  - right. now right.
Qed.

Lemma pq_top_among (q : list (F * nat)) (t : F * nat) :
  pq_top q = Some t -> In t q.
Proof.
  destruct q as [|x q]; [discriminate|]. cbn [pq_top]. intros H.
  inversion H; subst. destruct (greatest_among x q) as [-> | Hin].
  - now left.
  - now right.
Qed.

(** Popping a queue of pairs with distinct indices removes one pair. *)
Lemma pq_pop_length (q : list (F * nat)) :
  NoDup (map snd q) -> q <> [] ->
  S (length (pq_pop q)) = length q /\ NoDup (map snd (pq_pop q)).
Proof.
  intros Hnd Hne. unfold pq_pop.
  destruct (pq_top q) as [t|] eqn:Ht; [|destruct q; [congruence|discriminate]].
  apply pq_top_among in Ht. clear Hne.
  induction q as [|x q IH]; [contradiction|].
  cbn [map] in Hnd. inversion Hnd as [|? ? Hx Hq]; subst.
  cbn [filter]. destruct Ht as [-> | Ht].
  - rewrite Nat.eqb_refl. cbn [negb].
    assert (Hsame : filter (fun y => negb (snd y =? snd t)%nat) q = q).
    { apply filter_all. intros y Hy. apply negb_true_iff, Nat.eqb_neq.
      intros Heq. apply Hx. rewrite <- Heq. now apply in_map. }
    rewrite Hsame. split; [reflexivity|assumption].
  - assert (Hne : (snd x =? snd t)%nat = false).
    { apply Nat.eqb_neq. intros Heq. apply Hx. rewrite Heq.
      now apply in_map. }
    rewrite Hne. cbn [negb length map].
    destruct (IH Hq Ht) as [Hlen Hnd']. split; [now rewrite Hlen|].
    constructor; [|assumption].
    intros Hin. apply Hx. apply in_map_iff in Hin.
    destruct Hin as [y [Hy Hin]]. apply filter_In in Hin.
    rewrite <- Hy. apply in_map. tauto.
Qed.

(** Showing no more words than the queue holds never meets an empty
    queue, and shows that many words. *)
Lemma show_top_defined (n : nat) (q : list (F * nat)) :
  NoDup (map snd q) -> (n <= length q)%nat ->
  exists l, show_top n q = Some l /\ length l = n.
Proof.
  revert q. induction n as [|n IH]; intros q Hnd Hn.
  - exists []. split; reflexivity.
  - assert (Hne : q <> []) by (intros ->; simpl in Hn; lia).
    destruct (pq_pop_length Hnd Hne) as [Hlen Hnd'].
    destruct (IH (pq_pop q) Hnd') as [l [Hl Hlen']]; [lia|].
    cbn [show_top]. destruct (pq_top q) as [t|] eqn:Ht.
    + rewrite Hl. exists (snd t :: l). split; [reflexivity|]. simpl. lia.
    + destruct q; [congruence|discriminate].
Qed.

Lemma word_queue_indices (sum : vec) (wc : Z) :
  map snd (word_queue sum wc) = seq 0 (Z.to_nat wc).
Proof.
  unfold word_queue. rewrite map_map. cbn [snd]. apply map_id.
Qed.

Lemma displayed_defined (D : list vec) (d : ClusterData) (num : Z)
    (parts : list nat) :
  (num <= cd_wc d)%Z ->
  exists shown,
    displayed D d num parts = Some shown /\
    length shown = length parts /\
    Forall (fun l => length l = Z.to_nat num) shown.
Proof.
  intros Hnum. induction parts as [|i parts [shown [Hs [Hlen Hall]]]].
  - exists []. repeat split. constructor.
  - cbn [displayed]. unfold top_words.
    destruct (@show_top_defined (Z.to_nat num)
                (word_queue (vec_sum (rows D (nth i (partitions d) []))
                                     (cd_wc d) (nth i (p_sizes d) 0%Z))
                            (cd_wc d))) as [l [Hl Hlen']].
    + rewrite word_queue_indices. apply seq_NoDup.
    + unfold word_queue. rewrite length_map, length_seq. lia.
    + rewrite Hl, Hs. exists (l :: shown). split; [reflexivity|].
      split; [simpl; lia|]. constructor; assumption.
Qed.

End DisplayAnyArith.

(** ** The order of the words shown *)

Lemma filter_map_commute {X Y : Type} (f : X -> Y) (g : Y -> bool)
    (l : list X) :
  filter g (map f l) = map f (filter (fun x => g (f x)) l).
Proof.
  induction l as [|x l IH]; [reflexivity|].
  simpl. destruct (g (f x)); simpl; now rewrite IH.
Qed.

Section ShownOrder.

Context {F : Type} {A : Arith F}.

(** What the order of the words needs of the comparison [>]: see
    [FirstMaximum]. *)
Variable ok : F -> Prop.
Hypothesis gt_trans : forall a b c,
  f_gt a b = true -> f_gt b c = true -> f_gt a c = true.
Hypothesis gt_cotrans : forall a b c,
  ok c -> f_gt a b = true -> f_gt a c = true \/ f_gt c b = true.

Lemma pair_lt_false (a b : F * nat) :
  pair_lt a b = false -> snd b = snd a \/ pair_lt b a = true.
Proof.
  unfold pair_lt. intros H.
  apply orb_false_iff in H. destruct H as [H1 H2].
  destruct (f_gt (fst a) (fst b)) eqn:Hab; [right; reflexivity|].
  cbn [negb andb] in H2. apply Nat.ltb_ge in H2.
  destruct (Nat.eq_dec (snd b) (snd a)) as [Heq | Hne]; [now left|right].
  rewrite H1. cbn [negb orb andb]. apply Nat.ltb_lt. lia.
Qed.

Lemma pair_lt_trans (a b c : F * nat) :
  ok (fst a) -> ok (fst b) -> ok (fst c) ->
  pair_lt a b = true -> pair_lt b c = true -> pair_lt a c = true.
Proof.
  unfold pair_lt. intros Ha Hb Hc H1 H2.
  destruct (f_gt (fst b) (fst a)) eqn:Hba;
    destruct (f_gt (fst c) (fst b)) eqn:Hcb;
    cbn [orb] in H1, H2.
  - now rewrite (@gt_trans _ _ _ Hcb Hba).
  - apply andb_true_iff in H2. destruct H2 as [H2 _].
    apply negb_true_iff in H2.
    destruct (@gt_cotrans (fst b) (fst a) (fst c) Hc Hba) as [H | H];
      [congruence|now rewrite H].
  - apply andb_true_iff in H1. destruct H1 as [H1 _].
    apply negb_true_iff in H1.
    destruct (@gt_cotrans (fst c) (fst b) (fst a) Ha Hcb) as [H | H];
      [now rewrite H|congruence].
  - apply andb_true_iff in H1, H2.
    destruct H1 as [H1 H1'], H2 as [H2 H2'].
    apply negb_true_iff in H1, H2. apply Nat.ltb_lt in H1', H2'.
    assert (Hac : f_gt (fst a) (fst c) = false).
    { destruct (f_gt (fst a) (fst c)) eqn:Hac; [|reflexivity].
      destruct (@gt_cotrans (fst a) (fst c) (fst b) Hb Hac) as [H | H];
        congruence. }
    rewrite Hac. cbn [negb andb].
    replace (snd a <? snd c)%nat with true
      by (symmetry; apply Nat.ltb_lt; lia).
    apply orb_true_r.
Qed.

Variable sum : @vec F.
Hypothesis sum_ok : forall i, ok (at_ sum i).

Local Abbreviation entry i := (at_ sum i, i%nat).
Local Abbreviation entries idx := (map (fun i : nat => (at_ sum i, i)) idx).

Lemma entry_lt_false (a b : nat) :
  pair_lt (entry a) (entry b) = false ->
  b = a \/ pair_lt (entry b) (entry a) = true.
Proof. intros H. apply pair_lt_false in H. exact H. Qed.

Lemma entry_lt_trans (a b c : nat) :
  pair_lt (entry a) (entry b) = true -> pair_lt (entry b) (entry c) = true ->
  pair_lt (entry a) (entry c) = true.
Proof. apply pair_lt_trans; apply sum_ok. Qed.

Lemma greatest_entry (idx : list nat) (c : nat) :
  exists r, (r = c \/ In r idx) /\
            greatest (entry c) (entries idx) = entry r.
Proof.
  destruct (greatest_among (entry c) (entries idx)) as [H | H].
  - exists c. split; [now left|exact H].
  - apply in_map_iff in H. destruct H as [r [Hr Hin]].
    exists r. split; [now right|now symmetry].
Qed.

(** [greatest] returns a pair that no pair of the queue exceeds. *)
Lemma greatest_is_greatest (idx : list nat) (c y : nat) :
  y = c \/ In y idx ->
  entry y = greatest (entry c) (entries idx) \/
  pair_lt (entry y) (greatest (entry c) (entries idx)) = true.
Proof.
  revert c y. induction idx as [|x idx IH]; intros c y Hy.
  - destruct Hy as [-> | []]. now left.
  - cbn [map greatest].
    assert (Hgen : forall c',
              (forall z, z = c \/ z = x ->
                 z = c' \/ pair_lt (entry z) (entry c') = true) ->
              entry y = greatest (entry c') (entries idx) \/
              pair_lt (entry y) (greatest (entry c') (entries idx)) = true).
    { intros c' Hstep.
      assert (Hup : forall z,
                z = c' \/ pair_lt (entry z) (entry c') = true ->
                entry z = greatest (entry c') (entries idx) \/
                pair_lt (entry z) (greatest (entry c') (entries idx)) = true).
      { intros z [-> | Hz]; [apply IH; now left|].
        destruct (IH c' c' (or_introl eq_refl)) as [<- | H]; [now right|].
        right. destruct (greatest_entry idx c') as [r [_ Hr]].
        rewrite Hr in *. eapply entry_lt_trans; eassumption. }
      destruct Hy as [-> | [-> | Hy]].
      - apply Hup, Hstep. now left.
      - apply Hup, Hstep. now right.
      - apply IH. now right. }
    destruct (pair_lt (entry c) (entry x)) eqn:Hc.
    + apply (Hgen x). intros z [-> | ->]; auto.
    + apply (Hgen c). intros z [-> | ->]; auto.
      destruct (entry_lt_false _ _ Hc) as [H | H]; auto.
Qed.

Lemma pq_top_of_indices (idx : list nat) (t : F * nat) :
  pq_top (entries idx) = Some t ->
  exists i, In i idx /\ t = entry i /\
            forall j, In j idx -> j <> i -> shown_before sum i j.
Proof.
  intros Ht. pose proof (pq_top_among _ Ht) as Hin.
  apply in_map_iff in Hin. destruct Hin as [i [Hi Hin]].
  exists i. split; [assumption|]. split; [now symmetry|].
  intros j Hj Hne.
  destruct idx as [|x idx]; [contradiction|].
  cbn [map pq_top] in Ht. inversion Ht as [Hg]. clear Ht.
  assert (Hjq : j = x \/ In j idx) by (destruct Hj; auto).
  destruct (@greatest_is_greatest idx x j Hjq) as [Heq | Hlt].
  - rewrite Hg, <- Hi in Heq. inversion Heq. congruence.
  - rewrite Hg, <- Hi in Hlt. unfold pair_lt in Hlt. cbn [fst snd] in Hlt.
    unfold shown_before.
    apply orb_true_iff in Hlt. destruct Hlt as [H | H]; [now left|right].
    apply andb_true_iff in H. destruct H as [H1 H2].
    apply negb_true_iff in H1. apply Nat.ltb_lt in H2. now split.
Qed.

Lemma pq_pop_of_indices (idx : list nat) (i : nat) :
  pq_top (entries idx) = Some (entry i) ->
  pq_pop (entries idx)
  = entries (filter (fun j => negb (j =? i)%nat) idx).
Proof.
  intros Ht. unfold pq_pop. rewrite Ht. now rewrite filter_map_commute.
Qed.

(** The words shown are distinct words of the queue, each shown before
    the next, and before every word of the queue that is not shown. *)
Lemma show_top_order (n : nat) (idx l : list nat) :
  NoDup idx ->
  show_top n (entries idx) = Some l ->
  NoDup l /\ incl l idx /\
  StronglySorted (shown_before sum) l /\
  forall a c, In a l -> In c idx -> ~ In c l -> shown_before sum a c.
Proof.
  revert idx l. induction n as [|n IH]; intros idx l Hnd Hshow.
  - inversion Hshow; subst. repeat split.
    + constructor.
    + intros a [].
    + constructor.
    + intros a c [].
  - cbn [show_top] in Hshow.
    destruct (pq_top (entries idx)) as [t|] eqn:Ht; [|discriminate].
    destruct (pq_top_of_indices _ Ht) as [i [Hi [-> Hmax]]].
    rewrite (pq_pop_of_indices _ Ht) in Hshow.
    set (idx' := filter (fun j => negb (j =? i)%nat) idx) in *.
    destruct (show_top n (entries idx')) as [rest|] eqn:Hrest;
      [|discriminate].
    inversion Hshow; subst l. clear Hshow. cbn [snd].
    assert (Hnd' : NoDup idx') by now apply NoDup_filter.
    destruct (IH idx' rest Hnd' Hrest) as [Hnr [Hincl [Hsorted Hout]]].
    assert (Hidx' : forall j, In j idx' <-> In j idx /\ j <> i).
    { intros j. unfold idx'. rewrite filter_In, negb_true_iff, Nat.eqb_neq.
      tauto. }
    repeat split.
    + constructor; [|assumption]. intros Hin. apply Hincl, Hidx' in Hin.
      tauto.
    + intros a [<- | Ha]; [assumption|]. now apply Hincl, Hidx' in Ha.
    + constructor; [assumption|]. apply Forall_forall. intros b Hb.
      apply Hincl, Hidx' in Hb. now apply Hmax.
    + intros a c [<- | Ha] Hc Hnc.
      * apply Hmax; [assumption|]. intros ->. apply Hnc. now left.
      * apply Hout; [assumption| |].
        -- apply Hidx'. split; [assumption|]. intros ->. apply Hnc. now left.
        -- intros Hin. apply Hnc. now right.
Qed.

End ShownOrder.

Lemma vec_sum_not_nan (partition : list (list spec_float)) (p_size wc : Z) :
  (forall t, (t < Z.to_nat wc)%nat ->
     Ieee.is_nan (at_ (A := ieee_arith)
               (vec_sum (A := ieee_arith) partition wc p_size) t) = false) ->
  forall t, Ieee.is_nan (at_ (A := ieee_arith)
                      (vec_sum (A := ieee_arith) partition wc p_size) t)
            = false.
Proof.
  intros H t. destruct (Nat.lt_ge_cases t (Z.to_nat wc)) as [Ht | Ht].
  - now apply H.
  - unfold at_. rewrite nth_overflow; [reflexivity|].
    unfold vec_sum, tabulate. now rewrite length_map, length_seq.
Qed.

(** X14.  For [wc >= 0], when none of the summed weights of a partition
    is a NaN, the words that [displayResults] shows for it are distinct
    words below [wc], in decreasing order of their summed weight, a word
    of greater index first among weights that compare equal, and every
    word that is not shown would come after all those shown.  IEEE
    binary32. *)
Theorem top_words_order (partition : list (list spec_float))
    (p_size wc num : Z) (l : list nat) :
  (0 <= wc)%Z ->
  top_words (A := ieee_arith) partition p_size wc num = Some l ->
  let sum := vec_sum (A := ieee_arith) partition wc p_size in
  (forall t, (t < Z.to_nat wc)%nat ->
     Ieee.is_nan (at_ (A := ieee_arith) sum t) = false) ->
  NoDup l /\
  (forall a, In a l -> (a < Z.to_nat wc)%nat) /\
  StronglySorted (shown_before (A := ieee_arith) sum) l /\
  forall a c, In a l -> (c < Z.to_nat wc)%nat -> ~ In c l ->
              shown_before (A := ieee_arith) sum a c.
Proof.
  intros _ Hshow sum Hnan.
  unfold top_words, word_queue in Hshow. fold sum in Hshow.
  destruct (@show_top_order spec_float ieee_arith
              (fun x => Ieee.is_nan x = false) gt_trans
              (fun a b c Hc Hab => gt_cotrans a b c Hc Hab)
              sum (vec_sum_not_nan partition p_size wc Hnan)
              _ _ l (seq_NoDup (Z.to_nat wc) 0) Hshow)
    as [Hnd [Hincl [Hsorted Hout]]].
  split; [exact Hnd|]. split; [|split; [exact Hsorted|]].
  - intros a Ha. apply Hincl, in_seq in Ha. lia.
  - intros a c Ha Hc Hnc. apply Hout; try assumption. apply in_seq. lia.
Qed.

Lemma top_words_order_witness :
  top_words (A := ieee_arith) (Ieee.matrix word_weights) 1 3 2
  = Some [2; 1]%nat /\
  StronglySorted
    (shown_before (A := ieee_arith)
       (vec_sum (A := ieee_arith) (Ieee.matrix word_weights) 3 1))
    [2; 1]%nat.
Proof.
  assert (H : top_words (A := ieee_arith) (Ieee.matrix word_weights) 1 3 2
              = Some [2; 1]%nat) by (vm_compute; reflexivity).
  split; [exact H|].
  apply (@top_words_order (Ieee.matrix word_weights) 1 3 2 [2; 1]%nat
           ltac:(lia) H).
  intros t Ht.
  assert (t = 0 \/ t = 1 \/ t = 2)%nat as [-> | [-> | ->]]
    by (vm_compute in Ht; lia); vm_compute; reflexivity.
Defined.

Local Open Scope R_scope.

(** X13.  [displayResults] never takes the top of an empty queue,
    whatever the partitions and the weights: it shows [k] partitions
    and, for each, exactly [min(num_to_show, wc)] words (none when
    [num_to_show] is negative).  Any arithmetic. *)
Theorem displayResults_shows_min {F : Type} {A : Arith F}
    (D : list (@vec F)) (d : ClusterData) (num_to_show : Z) :
  (0 <= cd_wc d)%Z ->
  exists shown,
    displayResults D d num_to_show = Some shown /\
    length shown = Z.to_nat (cd_k d) /\
    Forall (fun l => length l = Z.to_nat (Z.min num_to_show (cd_wc d)))
           shown.
Proof.
  intros _. unfold displayResults, clamp_num_to_show.
  destruct (@displayed_defined F A D d
              (if (num_to_show >? cd_wc d)%Z then cd_wc d else num_to_show)
              (seq 0 (Z.to_nat (cd_k d)))) as [shown [Hs [Hlen Hall]]].
  - destruct (Z.gtb_spec num_to_show (cd_wc d)); lia.
  - exists shown. split; [exact Hs|]. split; [now rewrite Hlen, length_seq|].
    replace (Z.min num_to_show (cd_wc d))
      with (if (num_to_show >? cd_wc d)%Z then cd_wc d else num_to_show);
      [exact Hall|].
    destruct (Z.gtb_spec num_to_show (cd_wc d)); lia.
Qed.

Lemma displayResults_shows_min_witness :
  exists shown,
    displayResults [[3; 4; 4]] (mkClusterData 1 1 3 [[0%nat]] [1%Z] [])
                   10
    = Some shown /\
    length shown = 1%nat /\
    Forall (fun l => length l = 3%nat) shown.
Proof.
  apply (@displayResults_shows_min R real_arith [[3; 4; 4]]
           (mkClusterData 1 1 3 [[0%nat]] [1%Z] []) 10).
  cbn [cd_wc]. lia.
Defined.

(** ** Exact arithmetic: the comparison *)

Lemma Rgtb_true (a b : R) : Rgtb a b = true <-> a > b.
Proof.
  unfold Rgtb. destruct (Rlt_dec b a); split; intros H;
    try reflexivity; try discriminate; lra.
Qed.

Lemma Rgtb_false (a b : R) : Rgtb a b = false <-> a <= b.
Proof.
  unfold Rgtb. destruct (Rlt_dec b a); split; intros H;
    try reflexivity; try discriminate; lra.
Qed.

(** ** A single cluster *)

Section SingleCluster.

Context {F : Type} {A : Arith F}.

(** What the two statements below need of the arithmetic: [dQ] starts
    above the threshold, and a difference [q - q] is not above it. *)
Hypothesis Hstart :
  f_gt (f_mul Q_THRESHOLD (f_of_int 10)) Q_THRESHOLD = true.
Hypothesis Hdiag : forall q : F, f_gt (f_sub q q) Q_THRESHOLD = false.

Lemma single_cluster_partitions (D cvs : list (@vec F)) (dc wc : Z) :
  (0 <= dc)%Z ->
  partitions (data (initial_state D 1 dc wc)) = [seq 0 (Z.to_nat dc)] /\
  new_partitions D cvs 1 dc wc = [seq 0 (Z.to_nat dc)].
Proof.
  intros Hdc. split.
  - cbn [initial_state data partitions]. change (Z.to_nat 1) with 1%nat.
    cbn [first_partitioning fst]. change (0 =? 1 - 1)%Z with true.
    cbv iota. rewrite block_is_seq by lia. do 2 f_equal; lia.
  - pose proof (@new_partitions_length F A D cvs 1 dc wc) as Hlen.
    pose proof (@new_partitions_nth F A D cvs 1 dc wc 0%nat ltac:(lia))
      as Hnth.
    rewrite filter_all in Hnth.
    + destruct (new_partitions D cvs 1 dc wc) as [|p [|q l]];
        try discriminate. cbn in Hnth. now rewrite Hnth.
    + intros i _. apply Nat.eqb_eq.
      pose proof (@assign_doc_below F A (nth i D []) cvs 1 wc ltac:(lia)).
      lia.
Qed.

Lemma single_cluster_leaves (raw : list (@vec F)) (dc wc : Z) :
  (1 <= dc)%Z ->
  let D := txnScheme raw dc wc in
  leaves_after 1 D (initial_state D 1 dc wc) /\
  data (after 1 D (initial_state D 1 dc wc))
    = data (initial_state D 1 dc wc) /\
  partitions (data (initial_state D 1 dc wc)) = [seq 0 (Z.to_nat dc)].
Proof.
  intros Hdc D.
  assert (Hk : (1 <= 1 <= dc)%Z) by lia.
  assert (Hdc0 : (0 <= dc)%Z) by lia.
  destruct (single_cluster_partitions D
              (concepts (data (initial_state D 1 dc wc))) wc Hdc0)
    as [Hp Hnew].
  assert (Hfix : new_partitions D (concepts (data (initial_state D 1 dc wc)))
                   1 dc wc
                 = partitions (data (initial_state D 1 dc wc)))
    by now rewrite Hp, Hnew.
  destruct (loop_body_fixed (initial_consistent D wc Hk) Hfix)
    as [Hdata [_ HdQ]].
  split; [split|split].
  - intros m Hm. assert (m = 0)%nat as -> by lia. exact Hstart.
  - cbn [after]. rewrite HdQ. apply Hdiag.
  - exact Hdata.
  - exact Hp.
Qed.

End SingleCluster.

Lemma single_cluster_sizes {F : Type} {A : Arith F} (D : list (@vec F))
    (dc wc : Z) :
  (1 <= dc)%Z -> p_sizes (data (initial_state D 1 dc wc)) = [dc].
Proof.
  intros Hdc. cbn [initial_state data p_sizes]. change (Z.to_nat 1) with 1%nat.
  cbn [first_partitioning snd]. change (0 =? 1 - 1)%Z with true.
  cbv iota. f_equal. lia.
Qed.

(** X8.  With [k = 1] and at least one document, every run leaves the
    loop after exactly one round, whatever the weights: the single
    partition holds all the documents, in the order of the matrix, on
    entry and on return.  Exact real arithmetic. *)
Theorem single_cluster_one_round (raw : list (@vec R)) (dc wc : Z)
    (fuel : nat) :
  (1 <= dc)%Z -> (2 <= fuel)%nat ->
  exists st,
    runSPKMeans_locals fuel raw 1 dc wc = Some st /\
    iterations st = 1%Z /\
    partitions (data st) = [seq 0 (Z.to_nat dc)] /\
    p_sizes (data st) = [dc].
Proof.
  intros Hdc Hfuel.
  destruct (@single_cluster_leaves R real_arith) with (raw := raw) (dc := dc)
    (wc := wc) as [Hleave [Hdata Hp]]; try assumption.
  - real_ops. apply Rgtb_true. lra.
  - intros q. real_ops. apply Rgtb_false. lra.
  - exists (after 1 (txnScheme raw dc wc)
                  (initial_state (txnScheme raw dc wc) 1 dc wc)).
    split; [|split; [|split]].
    + unfold runSPKMeans_locals. apply spk_loop_leaves; [assumption|lia].
    + reflexivity.
    + now rewrite Hdata.
    + rewrite Hdata. now apply single_cluster_sizes.
Qed.

Lemma single_cluster_one_round_witness :
  exists st,
    runSPKMeans_locals 2 four_real_documents 1 4 2 = Some st /\
    iterations st = 1%Z /\
    partitions (data st) = [[0; 1; 2; 3]]%nat /\
    p_sizes (data st) = [4%Z].
Proof.
  apply (@single_cluster_one_round four_real_documents 4 2 2%nat); lia.
Defined.

(** X9.  The same in IEEE binary32, where it covers the degenerate
    inputs as well: with [k = 1] and at least one document every run
    leaves the loop after exactly one round, whether the quality is a
    number, an infinity or a NaN (zero documents included). *)
Theorem single_cluster_one_round_ieee (raw : list (list spec_float))
    (dc wc : Z) (fuel : nat) :
  (1 <= dc)%Z -> (2 <= fuel)%nat ->
  exists st,
    runSPKMeans_locals (A := ieee_arith) fuel raw 1 dc wc = Some st /\
    iterations st = 1%Z /\
    partitions (data st) = [seq 0 (Z.to_nat dc)] /\
    p_sizes (data st) = [dc].
Proof.
  intros Hdc Hfuel.
  destruct (@single_cluster_leaves spec_float ieee_arith) with (raw := raw)
    (dc := dc) (wc := wc) as [Hleave [Hdata Hp]]; try assumption.
  - vm_compute. reflexivity.
  - intros q. apply ieee_difference_not_above_threshold.
  - exists (after 1 (txnScheme raw dc wc)
                  (initial_state (txnScheme raw dc wc) 1 dc wc)).
    split; [|split; [|split]].
    + unfold runSPKMeans_locals. apply spk_loop_leaves; [assumption|lia].
    + reflexivity.
    + now rewrite Hdata.
    + rewrite Hdata. now apply single_cluster_sizes.
Qed.

Lemma single_cluster_one_round_ieee_witness :
  exists st,
    runSPKMeans_locals (A := ieee_arith) 2 (Ieee.matrix zero_document) 1 1 2
      = Some st /\
    iterations st = 1%Z /\
    partitions (data st) = [[0]]%nat /\
    p_sizes (data st) = [1%Z].
Proof.
  apply (@single_cluster_one_round_ieee (Ieee.matrix zero_document) 1 2 2%nat);
    lia.
Defined.

(** ** More clusters than documents *)

(** X10.  With [k >= 1] and fewer documents than clusters
    ([0 <= dc < k]) the first partitioning leaves each of the first
    [k - 1] partitions empty, with recorded size 0, and gives every
    document to the last one. *)
Theorem first_partitioning_few_documents (dc k : Z) :
  (0 <= dc < k)%Z ->
  let first := first_partitioning (Z.to_nat k) 0 1 (dc / k) dc k in
  (forall i, (S i < Z.to_nat k)%nat ->
     nth i (fst first) [] = [] /\ nth i (snd first) 0%Z = 0%Z) /\
  nth (Z.to_nat k - 1) (fst first) [] = seq 0 (Z.to_nat dc) /\
  nth (Z.to_nat k - 1) (snd first) 0%Z = dc.
Proof.
  intros Hk first.
  assert (Hs : (dc / k = 0)%Z) by (apply Z.div_small; lia).
  unfold first. rewrite Hs.
  destruct (Z.to_nat k) as [|n] eqn:Hn; [lia|].
  split; [|split].
  - intros i Hi.
    destruct (@first_partitioning_inner 0%Z dc k ltac:(lia) (S n) 0%Z 1%Z i)
      as [H1 H2]; try lia.
    rewrite H1, H2. split; reflexivity.
  - replace (S n - 1)%nat with n by lia.
    destruct (@first_partitioning_last 0%Z dc k ltac:(lia) n 0%Z 1%Z)
      as [H1 _]; try lia.
    rewrite H1. f_equal; lia.
  - replace (S n - 1)%nat with n by lia.
    destruct (@first_partitioning_last 0%Z dc k ltac:(lia) n 0%Z 1%Z)
      as [_ H2]; lia.
Qed.

Lemma first_partitioning_few_documents_witness :
  nth (Z.to_nat 3 - 1) (fst (first_partitioning (Z.to_nat 3) 0 1 (2 / 3) 2 3)) []
  = seq 0 (Z.to_nat 2).
Proof.
  apply (@first_partitioning_few_documents 2 3). lia.
Defined.

(** ** Empty partitions in binary32 *)

Lemma tabulate_constant {F : Type} {A : Arith F} (n : Z) (f : nat -> F)
    (c : F) :
  (forall i, (i < Z.to_nat n)%nat -> f i = c) ->
  tabulate n f = repeat c (Z.to_nat n).
Proof.
  intros H. unfold tabulate.
  replace (repeat c (Z.to_nat n))
    with (repeat c (length (seq 0 (Z.to_nat n))))
    by now rewrite length_seq.
  apply map_all_equal. intros i Hi. apply in_seq in Hi. apply H. lia.
Qed.

Lemma at_repeat {F : Type} {A : Arith F} (c : F) (n i : nat) :
  (i < n)%nat -> at_ (repeat c n) i = c.
Proof.
  intros Hi. unfold at_. apply nth_repeat_lt. exact Hi.
Qed.

Lemma computeConcept_empty_nan (group : list (list spec_float))
    (p_size wc : Z) :
  (p_size <= 0)%Z ->
  computeConcept (A := ieee_arith) group p_size wc
  = repeat S754_nan (Z.to_nat wc).
Proof.
  intros Hp. unfold computeConcept.
  set (y := f_div (Arith := ieee_arith) (f_of_int 1) (f_of_int wc)).
  set (c0 := f_mul (Arith := ieee_arith) (S754_zero false) y).
  assert (Hsum : vec_sum (A := ieee_arith) group wc p_size
                 = repeat (S754_zero false) (Z.to_nat wc)).
  { unfold vec_sum. apply tabulate_constant. intros i _.
    replace (Z.to_nat p_size) with 0%nat by lia. reflexivity. }
  rewrite Hsum.
  assert (Hscaled : vec_multiply (A := ieee_arith)
                      (repeat (S754_zero false) (Z.to_nat wc)) wc y
                    = repeat c0 (Z.to_nat wc)).
  { unfold vec_multiply. apply tabulate_constant. intros i Hi.
    now rewrite at_repeat. }
  rewrite Hscaled.
  unfold vec_divide. apply tabulate_constant. intros i Hi.
  rewrite at_repeat by assumption.
  assert (Hc0 : c0 = S754_nan \/ exists b, c0 = S754_zero b).
  { unfold c0. cbn [f_mul ieee_arith Ieee.arith].
    destruct y as [s|s| |s m e]; cbn; eauto. }
  destruct Hc0 as [-> | [b ->]]; [reflexivity|].
  unfold vec_norm, vec_dot.
  rewrite accumulate_zero_squares.
  - destruct b; reflexivity.
  - intros t Ht. now rewrite at_repeat.
Qed.

(** X11.  In IEEE binary32 the concept vector computed for an empty
    partition ([p_size <= 0]) is made of NaNs, one per word: the sum
    is the zero vector and is divided by its norm 0. *)
Theorem computeConcept_empty_partition (group : list (list spec_float))
    (p_size wc : Z) :
  (p_size <= 0)%Z ->
  computeConcept (A := ieee_arith) group p_size wc
  = repeat S754_nan (Z.to_nat wc).
Proof. apply computeConcept_empty_nan. Qed.

Lemma computeConcept_empty_partition_witness :
  computeConcept (A := ieee_arith) [] 0 2 = [S754_nan; S754_nan].
Proof.
  apply (@computeConcept_empty_partition [] 0 2). lia.
Defined.

Lemma ieee_fold_nan (f : nat -> spec_float) (l : list nat) :
  fold_left (fun acc i => f_add (Arith := ieee_arith) acc (f i)) l S754_nan
  = S754_nan.
Proof. induction l as [|a l IH]; [reflexivity|]. simpl. exact IH. Qed.

(** A sum whose first term is a NaN is a NaN. *)
Lemma ieee_accumulate_nan (n : nat) (f : nat -> spec_float) :
  (1 <= n)%nat -> f 0%nat = S754_nan ->
  accumulate (A := ieee_arith) n f = S754_nan.
Proof.
  intros Hn H0. destruct n as [|n]; [lia|].
  unfold accumulate. cbn [seq fold_left]. rewrite H0.
  cbn [f_add f_zero ieee_arith Ieee.arith]. apply ieee_fold_nan.
Qed.

Lemma ieee_mul_nan_r (x : spec_float) :
  f_mul (Arith := ieee_arith) x S754_nan = S754_nan.
Proof. destruct x; reflexivity. Qed.

(** The similarity with a concept vector of NaNs is a NaN. *)
Lemma cosineSimilarity_nan_concept (dv : list spec_float) (wc : Z) :
  cosineSimilarity (A := ieee_arith) dv (repeat S754_nan (Z.to_nat wc)) wc
  = S754_nan.
Proof.
  unfold cosineSimilarity.
  destruct (Z.to_nat wc) as [|n] eqn:Hn.
  - unfold vec_norm, vec_dot. rewrite Hn. reflexivity.
  - assert (Hdot : vec_dot (A := ieee_arith) dv (repeat S754_nan (S n)) wc
                   = S754_nan).
    { unfold vec_dot. rewrite Hn. apply ieee_accumulate_nan; [lia|].
      rewrite at_repeat by lia. apply ieee_mul_nan_r. }
    rewrite Hdot. reflexivity.
Qed.

Lemma best_concept_nan (dv : list spec_float) (cvs : list (list spec_float))
    (wc : Z) (js : list nat) (cIndx : nat) :
  best_concept (A := ieee_arith) dv cvs wc js cIndx S754_nan = cIndx.
Proof.
  induction js as [|j js IH]; [reflexivity|].
  cbn [best_concept].
  replace (f_gt (Arith := ieee_arith)
             (cosineSimilarity (A := ieee_arith) dv (nth j cvs []) wc)
             S754_nan) with false; [exact IH|].
  cbn [f_gt ieee_arith Ieee.arith]. unfold Ieee.gt.
  cbn [Ieee.widen]. unfold SFltb. now cbn [SFcompare].
Qed.

Section FewDocuments.

Variables (raw : list (list spec_float)) (k dc wc : Z).
Hypothesis Hk : (0 <= dc < k)%Z.
Hypothesis Hwc : (1 <= wc)%Z.

Local Abbreviation D := (txnScheme (A := ieee_arith) raw dc wc).
Local Abbreviation st0 := (initial_state (A := ieee_arith) D k dc wc).

Lemma few_documents_first_size :
  nth 0%nat (p_sizes (data st0)) 0%Z = 0%Z.
Proof.
  cbn [initial_state data p_sizes].
  assert (Hs : (dc / k = 0)%Z) by (apply Z.div_small; lia).
  rewrite Hs.
  destruct (Z.to_nat k) as [|[|n]] eqn:Hn; [lia| |].
  - destruct (@first_partitioning_last 0%Z dc k ltac:(lia) 0%nat 0%Z 1%Z)
      as [_ H2]; lia.
  - destruct (@first_partitioning_inner 0%Z dc k ltac:(lia) (S (S n)) 0%Z 1%Z
                0%nat) as [_ H2]; lia.
Qed.

Lemma few_documents_first_concept :
  nth 0%nat (concepts (data st0)) [] = repeat S754_nan (Z.to_nat wc).
Proof.
  change (concepts (data st0))
    with (computeConcepts (A := ieee_arith) D (partitions (data st0))
            (p_sizes (data st0)) k wc).
  unfold computeConcepts.
  destruct (Z.to_nat k) as [|n] eqn:Hn; [lia|].
  cbn [seq map nth].
  apply computeConcept_empty_nan. rewrite few_documents_first_size. lia.
Qed.

Lemma few_documents_assign (dv : list spec_float) :
  assign_doc (A := ieee_arith) dv (concepts (data st0)) k wc = 0%nat.
Proof.
  unfold assign_doc.
  rewrite few_documents_first_concept, cosineSimilarity_nan_concept.
  apply best_concept_nan.
Qed.

Lemma few_documents_quality : quality st0 = S754_nan.
Proof.
  change (quality st0) with (quality_of (A := ieee_arith) D (data st0)).
  unfold quality_of, computeQuality.
  change (cd_k (data st0)) with k. change (cd_wc (data st0)) with wc.
  apply ieee_accumulate_nan; [lia|].
  unfold computeQuality1.
  rewrite few_documents_first_concept.
  unfold vec_dot. apply ieee_accumulate_nan; [lia|].
  rewrite at_repeat by lia. apply ieee_mul_nan_r.
Qed.

End FewDocuments.

Lemma ieee_sub_nan_r (x : spec_float) :
  f_sub (Arith := ieee_arith) x S754_nan = S754_nan.
Proof. destruct x; reflexivity. Qed.

(** X12.  In IEEE binary32, a run with fewer documents than clusters
    ([0 <= dc < k]) and at least one word leaves the loop after exactly
    one round: the first partition starts empty, so its concept vector
    and the quality are NaN, every similarity with it is a NaN, every
    document is assigned to partition 0, the other partitions are left
    empty, and the [dQ] of that round is a NaN, which is not above the
    threshold. *)
Theorem few_documents_one_round (raw : list (list spec_float))
    (k dc wc : Z) (fuel : nat) :
  (0 <= dc < k)%Z -> (1 <= wc)%Z -> (2 <= fuel)%nat ->
  let D := txnScheme (A := ieee_arith) raw dc wc in
  quality (initial_state (A := ieee_arith) D k dc wc) = S754_nan /\
  exists st,
    runSPKMeans_locals (A := ieee_arith) fuel raw k dc wc = Some st /\
    iterations st = 1%Z /\
    dQ st = S754_nan /\
    nth 0%nat (partitions (data st)) [] = seq 0 (Z.to_nat dc) /\
    forall j, (1 <= j)%nat -> nth j (partitions (data st)) [] = [].
Proof.
  intros Hk Hwc Hfuel D.
  set (st0 := initial_state (A := ieee_arith) D k dc wc).
  pose proof (few_documents_quality raw Hk Hwc) as Hq.
  fold D in Hq. fold st0 in Hq.
  split; [exact Hq|].
  assert (HdQ : dQ (loop_body (A := ieee_arith) D st0) = S754_nan).
  { change (dQ (loop_body (A := ieee_arith) D st0))
      with (f_sub (Arith := ieee_arith)
              (quality (loop_body (A := ieee_arith) D st0)) (quality st0)).
    rewrite Hq. apply ieee_sub_nan_r. }
  assert (Hparts : forall j,
            nth j (partitions (data (loop_body (A := ieee_arith) D st0))) []
            = filter (fun i => Nat.eqb 0 j) (seq 0 (Z.to_nat dc))).
  { intros j.
    change (partitions (data (loop_body (A := ieee_arith) D st0)))
      with (new_partitions (A := ieee_arith) D (concepts (data st0)) k dc wc).
    rewrite new_partitions_nth by lia.
    apply filter_ext. intros i.
    unfold st0, D. now rewrite (@few_documents_assign raw k dc wc Hk). }
  exists (loop_body (A := ieee_arith) D st0).
  split; [|split; [|split; [|split]]].
  - unfold runSPKMeans_locals. fold D. fold st0.
    change (loop_body (A := ieee_arith) D st0)
      with (after (A := ieee_arith) 1 D st0).
    apply spk_loop_leaves; [|lia]. split.
    + intros m Hm. assert (m = 0)%nat as -> by lia.
      cbn [after]. unfold st0. cbn [initial_state dQ]. vm_compute.
      reflexivity.
    + cbn [after]. rewrite HdQ. reflexivity.
  - reflexivity.
  - exact HdQ.
  - rewrite Hparts. apply filter_all. intros i _. reflexivity.
  - intros j Hj. rewrite Hparts. apply filter_none. intros i _.
    destruct j; [lia|reflexivity].
Qed.

Lemma few_documents_one_round_witness :
  exists st,
    runSPKMeans_locals (A := ieee_arith) 2
      (Ieee.matrix cone_documents) 5 4 2 = Some st /\
    iterations st = 1%Z /\
    dQ st = S754_nan /\
    nth 0%nat (partitions (data st)) [] = seq 0 (Z.to_nat 4) /\
    forall j, (1 <= j)%nat -> nth j (partitions (data st)) [] = [].
Proof.
  apply (@few_documents_one_round (Ieee.matrix cone_documents) 5 4 2 2%nat);
    lia.
Defined.

(** ** The order of the documents in a partition *)

Lemma seq_sorted (s n : nat) : StronglySorted lt (seq s n).
Proof.
  revert s. induction n as [|n IH]; intros s; cbn [seq]; constructor.
  - apply IH.
  - apply Forall_forall. intros x Hx. apply in_seq in Hx. lia.
Qed.

Lemma filter_sorted (f : nat -> bool) (l : list nat) :
  StronglySorted lt l -> StronglySorted lt (filter f l).
Proof.
  induction 1 as [|a l Hs IH Hall]; cbn [filter]; [constructor|].
  destruct (f a); [|exact IH]. constructor; [exact IH|].
  apply Forall_forall. intros x Hx. apply filter_In in Hx.
  rewrite Forall_forall in Hall. now apply Hall.
Qed.

Section OrderAnyArith.

Context {F : Type} {A : Arith F}.

Lemma initial_partitions_sorted (D : list (@vec F)) (k dc wc : Z) (j : nat) :
  (1 <= k <= dc)%Z ->
  StronglySorted lt (nth j (partitions (data (initial_state D k dc wc))) []).
Proof.
  intros Hk. cbn [initial_state data partitions].
  assert (Hs : (0 <= dc / k)%Z) by (apply Z.div_pos; lia).
  destruct (Z.to_nat k) as [|n] eqn:Hn; [lia|].
  destruct (Nat.lt_ge_cases j n) as [Hj | Hj].
  - destruct (@first_partitioning_inner (dc / k)%Z dc k Hs (S n) 0 1 j)
      as [H _]; try lia.
    rewrite H. apply seq_sorted.
  - destruct (Nat.eq_dec j n) as [-> | Hne].
    + destruct (@first_partitioning_last (dc / k)%Z dc k Hs n 0 1)
        as [H _]; try lia.
      rewrite H. apply seq_sorted.
    + destruct (first_partitioning_length (dc / k) dc k (S n) 0 1)
        as [H _].
      rewrite nth_overflow; [constructor|]. rewrite H. lia.
Qed.

End OrderAnyArith.

(** X16.  On entry to the loop and after every round, every partition
    lists its documents in the order of the matrix: the row indices of a
    partition increase strictly.  Any arithmetic. *)
Theorem partitions_keep_matrix_order {F : Type} {A : Arith F}
    (D : list (@vec F)) (k dc wc : Z) (n j : nat) :
  (1 <= k <= dc)%Z ->
  StronglySorted lt
    (nth j (partitions (data (after n D (initial_state D k dc wc)))) []).
Proof.
  intros Hk. destruct n as [|n].
  - now apply initial_partitions_sorted.
  - cbn [after loop_body data partitions].
    destruct (after_parameters n D (initial_state D k dc wc))
      as [H1 _].
    cbn [initial_state data cd_k] in H1.
    rewrite new_partitions_nth by (rewrite H1; lia).
    apply filter_sorted, seq_sorted.
Qed.

Lemma partitions_keep_matrix_order_witness :
  let D := txnScheme four_real_documents 4 2 in
  StronglySorted lt
    (nth 1%nat (partitions (data (after 1 D (initial_state D 2 4 2)))) []).
Proof.
  apply (@partitions_keep_matrix_order R real_arith
           (txnScheme four_real_documents 4 2) 2 4 2 1%nat 1%nat).
  lia.
Defined.

(** ** Equal documents *)

Lemma txnScheme_nth_any {F : Type} {A : Arith F} (raw : list (@vec F))
    (dc wc : Z) (i : nat) :
  (i < Z.to_nat dc)%nat ->
  nth i (txnScheme raw dc wc) [] = vec_normalize (nth i raw []) wc.
Proof.
  intros Hi. unfold txnScheme.
  rewrite nth_indep with (d' := vec_normalize (nth 0%nat raw []) wc)
    by now rewrite length_map, length_seq.
  rewrite (map_nth (fun i => vec_normalize (nth i raw []) wc)
                   (seq 0 (Z.to_nat dc)) 0%nat).
  now rewrite seq_nth.
Qed.

(** X17.  Documents with the same vector are never separated: after any
    round of the loop, two rows of the matrix given to [runSPKMeans]
    that are equal are in the same partition.  Any arithmetic. *)
Theorem equal_documents_stay_together {F : Type} {A : Arith F}
    (raw : list (@vec F)) (k dc wc : Z) (n i i' j : nat) :
  (1 <= k)%Z -> (i < Z.to_nat dc)%nat -> (i' < Z.to_nat dc)%nat ->
  nth i raw [] = nth i' raw [] ->
  let D := txnScheme raw dc wc in
  let st := after (S n) D (initial_state D k dc wc) in
  In i (nth j (partitions (data st)) []) <->
  In i' (nth j (partitions (data st)) []).
Proof.
  intros Hk Hi Hi' Heq D st. unfold st.
  cbn [after loop_body data partitions].
  destruct (after_parameters n D (initial_state D k dc wc))
    as [H1 [H2 _]].
  cbn [initial_state data cd_k cd_dc] in H1, H2.
  rewrite new_partitions_nth by (rewrite H1; lia).
  rewrite H2, !filter_In, !in_seq.
  assert (Hrow : nth i D [] = nth i' D []).
  { unfold D. rewrite !txnScheme_nth_any by assumption. now rewrite Heq. }
  rewrite Hrow. split; intros [_ H]; (split; [lia|exact H]).
Qed.

Lemma equal_documents_stay_together_witness :
  let D := txnScheme four_real_documents 4 2 in
  let st := after 1 D (initial_state D 2 4 2) in
  In 0%nat (nth 1%nat (partitions (data st)) []) <->
  In 2%nat (nth 1%nat (partitions (data st)) []).
Proof.
  apply (@equal_documents_stay_together R real_arith four_real_documents
           2 4 2 0%nat 0%nat 2%nat 1%nat); (lia || reflexivity).
Defined.

(** * The command line *)

Module CliProperties.

Import String.
Import Cli.
Local Open Scope string_scope.
Local Close Scope R_scope.

Section WithEnvironment.

Variable atoi : string -> Z.
Variable file_good : string -> bool.

Local Abbreviation scan := (Cli.scan atoi).
Local Abbreviation processArgs := (Cli.processArgs atoi file_good).
Local Abbreviation apply := (Cli.apply atoi).
Local Abbreviation number_of := (Cli.number_of atoi).

Lemma scan_switch_free (flag v : string) (rest : list string) (s : Settings) :
  is_switch flag = false ->
  scan (flag :: v :: rest) s = scan rest (set_value atoi s flag v).
Proof.
  unfold is_switch. rewrite !orb_false_iff.
  intros [[[[[H1 H2] H3] H4] H5] H6].
  cbn [Cli.scan]. now rewrite H1, H2, H3, H4, H5, H6.
Qed.

Lemma scan_switch_free_last (flag : string) (s : Settings) :
  is_switch flag = false ->
  scan [flag] s = if takes_value flag then Null else Fell s.
Proof.
  unfold is_switch. rewrite !orb_false_iff.
  intros [[[[[H1 H2] H3] H4] H5] H6].
  cbn [Cli.scan]. now rewrite H1, H2, H3, H4, H5, H6.
Qed.

(** Well-formed tokens are read one after the other. *)
Lemma scan_tokens (ts : list Token) (rest : list string) (s : Settings) :
  Forall well_formed ts ->
  scan (flat_map render ts ++ rest) s = scan rest (fold_left apply ts s).
Proof.
  intros Hwf. revert s. induction Hwf as [|t ts Ht _ IH]; intros s.
  - reflexivity.
  - cbn [flat_map fold_left]. rewrite <- app_assoc.
    destruct t as [[|]|flag value].
    + cbn [render Cli.apply]. cbn. apply IH.
    + cbn [render Cli.apply]. cbn. apply IH.
    + cbn [render Cli.apply app]. cbn [well_formed] in Ht.
      rewrite scan_switch_free by assumption. apply IH.
Qed.

Lemma eqb_flag (f g : string) : (f =? g) = true -> f = g.
Proof. apply String.eqb_eq. Qed.

Lemma fold_apply_k (ts : list Token) (s : Settings) (base : Z)
    (found : option string) :
  k s = number_of base found ->
  k (fold_left apply ts s) = number_of base (last_value "-k" ts found).
Proof.
  revert s found. induction ts as [|t ts IH]; intros s found Hs.
  - exact Hs.
  - cbn [fold_left last_value]. destruct t as [b|f v].
    + apply IH. destruct b; exact Hs.
    + apply IH. cbn [Cli.apply]. unfold set_value.
      destruct (f =? "-k") eqn:Hk.
      * apply eqb_flag in Hk. subst f. reflexivity.
      * destruct (f =? "-d"); [exact Hs|].
        destruct ((f =? "-w") || (f =? "-v")); [exact Hs|].
        destruct (f =? "-t"); exact Hs.
Qed.

Lemma fold_apply_threads (ts : list Token) (s : Settings) (base : Z)
    (found : option string) :
  num_threads s = number_of base found ->
  num_threads (fold_left apply ts s)
  = number_of base (last_value "-t" ts found).
Proof.
  revert s found. induction ts as [|t ts IH]; intros s found Hs.
  - exact Hs.
  - cbn [fold_left last_value]. destruct t as [b|f v].
    + apply IH. destruct b; exact Hs.
    + apply IH. cbn [Cli.apply]. unfold set_value.
      destruct (f =? "-t") eqn:Ht.
      * apply eqb_flag in Ht. subst f. reflexivity.
      * destruct (f =? "-d"); [exact Hs|].
        destruct ((f =? "-w") || (f =? "-v")); [exact Hs|].
        destruct (f =? "-k"); exact Hs.
Qed.

Lemma fold_apply_doc (ts : list Token) (s : Settings) (base : string)
    (found : option string) :
  doc_fname s = text_of base found ->
  doc_fname (fold_left apply ts s) = text_of base (last_value "-d" ts found).
Proof.
  revert s found. induction ts as [|t ts IH]; intros s found Hs.
  - exact Hs.
  - cbn [fold_left last_value]. destruct t as [b|f v].
    + apply IH. destruct b; exact Hs.
    + apply IH. cbn [Cli.apply]. unfold set_value.
      destruct (f =? "-d") eqn:Hd; [reflexivity|].
      destruct ((f =? "-w") || (f =? "-v")); [exact Hs|].
      destruct (f =? "-k"); [exact Hs|].
      destruct (f =? "-t"); exact Hs.
Qed.

(** X19.  A command line made of run type switches and of flags each
    followed by a value is read piece by piece, whatever the values are
    (a value "--help" is a value): [processArgs] returns
    [RETURN_SUCCESS] when the document file it has settled on can be
    opened and [RETURN_ERROR] when not; [k], the number of threads and
    the document file are those of the last [-k], [-t] and [-d], and the
    defaults 2, 2 and "docs" when there is none. *)
Theorem processArgs_well_formed (ts : list Token) :
  Forall well_formed ts ->
  let s := fold_left apply ts defaults in
  processArgs (flat_map render ts)
  = Returned (if file_good (doc_fname s)
              then RETURN_SUCCESS else RETURN_ERROR) s /\
  k s = number_of DEFAULT_K (last_value "-k" ts None) /\
  num_threads s = number_of DEFAULT_THREADS (last_value "-t" ts None) /\
  doc_fname s = text_of DEFAULT_DOC_FILE (last_value "-d" ts None).
Proof.
  intros Hwf s. split; [|split; [|split]].
  - unfold Cli.processArgs.
    rewrite <- (app_nil_r (flat_map render ts)).
    rewrite scan_tokens by assumption. cbn [Cli.scan]. fold s.
    destruct (file_good (doc_fname s)); reflexivity.
  - now apply fold_apply_k.
  - now apply fold_apply_threads.
  - now apply fold_apply_doc.
Qed.

(** X20.  After such a command line, "--help" or "-h" makes
    [processArgs] return [RETURN_HELP] and "--version" or "-V"
    [RETURN_VERSION], with the settings read so far, whatever follows
    and whether or not the document file exists; [main] then leaves
    with status 0. *)
Theorem processArgs_help_version (ts : list Token) (rest : list string) :
  Forall well_formed ts ->
  let s := fold_left apply ts defaults in
  (forall h, h = "--help" \/ h = "-h" ->
     processArgs (flat_map render ts ++ h :: rest) = Returned RETURN_HELP s /\
     main_dispatch atoi file_good (flat_map render ts ++ h :: rest)
     = Some (ExitUsage 0)) /\
  (forall v, v = "--version" \/ v = "-V" ->
     processArgs (flat_map render ts ++ v :: rest)
     = Returned RETURN_VERSION s /\
     main_dispatch atoi file_good (flat_map render ts ++ v :: rest)
     = Some (ExitVersion 0)).
Proof.
  intros Hwf s. split.
  - intros h Hh.
    assert (H : processArgs (flat_map render ts ++ h :: rest)
                = Returned RETURN_HELP s).
    { unfold Cli.processArgs. rewrite scan_tokens by assumption. fold s.
      destruct Hh as [-> | ->]; reflexivity. }
    split; [exact H|]. unfold main_dispatch. now rewrite H.
  - intros v Hv.
    assert (H : processArgs (flat_map render ts ++ v :: rest)
                = Returned RETURN_VERSION s).
    { unfold Cli.processArgs. rewrite scan_tokens by assumption. fold s.
      destruct Hv as [-> | ->]; reflexivity. }
    split; [exact H|]. unfold main_dispatch. now rewrite H.
Qed.

(** X21.  A last argument that is not a switch has no value after it:
    when it is one of [-d], [-w], [-v], [-k], [-t], [processArgs] reads
    [argv[argc]], a null pointer, and its behaviour is undefined; any
    other last argument is ignored. *)
Theorem processArgs_last_flag (ts : list Token) (flag : string) :
  Forall well_formed ts -> is_switch flag = false ->
  processArgs (flat_map render ts ++ [flag])
  = if takes_value flag then Undefined else processArgs (flat_map render ts).
Proof.
  intros Hwf Hflag. unfold Cli.processArgs.
  rewrite scan_tokens by assumption.
  rewrite scan_switch_free_last by assumption.
  destruct (takes_value flag); [reflexivity|].
  assert (H : Cli.scan atoi (flat_map render ts) defaults
              = Fell (fold_left apply ts defaults)).
  { rewrite <- (app_nil_r (flat_map render ts)).
    now rewrite scan_tokens. }
  now rewrite H.
Qed.

Lemma set_value_in_range (s : Settings) (f v : string) :
  in_range s -> in_range (set_value atoi s f v).
Proof.
  intros [Hk Ht]. unfold set_value, in_range, to_unsigned.
  destruct (f =? "-d"); [split; assumption|].
  destruct ((f =? "-w") || (f =? "-v")); [split; assumption|].
  destruct (f =? "-k"); [split; [apply Z.mod_pos_bound; lia|assumption]|].
  destruct (f =? "-t"); [split; [assumption|apply Z.mod_pos_bound; lia]|].
  split; assumption.
Qed.

(** What every end of the loop has: a [return] inside the loop is one of
    the help and of the version, and the two numbers are those of an
    [unsigned int]. *)
Lemma scan_invariant (n : nat) (args : list string) (s : Settings) :
  (List.length args <= n)%nat -> in_range s ->
  match scan args s with
  | Stop code s' =>
      (code = RETURN_HELP \/ code = RETURN_VERSION) /\ in_range s'
  | Fell s' => in_range s'
  | Null => True
  end.
Proof.
  revert args s. induction n as [|n IH]; intros args s Hlen Hs.
  - destruct args; [exact Hs|simpl in Hlen; lia].
  - destruct args as [|arg rest]; [exact Hs|].
    cbn [List.length] in Hlen. cbn [Cli.scan].
    destruct ((arg =? "--help") || (arg =? "-h")); [split; [now left|exact Hs]|].
    destruct ((arg =? "--version") || (arg =? "-V"));
      [split; [now right|exact Hs]|].
    destruct (arg =? "--galois"); [apply IH; [lia|exact Hs]|].
    destruct (arg =? "--openmp"); [apply IH; [lia|exact Hs]|].
    destruct rest as [|v rest'].
    + destruct (takes_value arg); [exact I|exact Hs].
    + apply IH; [cbn [List.length] in Hlen; lia|].
      now apply set_value_in_range.
Qed.

(** X22.  Whatever the arguments, when [processArgs] returns it returns
    one of the four codes; [RETURN_SUCCESS] only when the document file
    of the settings can be opened and [RETURN_ERROR] only when it cannot;
    [k] and the number of threads are below 2^32 and not negative (a
    negative [-k] wraps around); and [main] goes on to cluster only
    after [RETURN_SUCCESS]. *)
Theorem processArgs_returns (args : list string) (code : Z) (s : Settings) :
  processArgs args = Returned code s ->
  ((code = RETURN_HELP \/ code = RETURN_VERSION) \/
   (code = RETURN_SUCCESS /\ file_good (doc_fname s) = true) \/
   (code = RETURN_ERROR /\ file_good (doc_fname s) = false)) /\
  in_range s /\
  (main_dispatch atoi file_good args = Some (Cluster s) <->
   code = RETURN_SUCCESS).
Proof.
  intros H.
  assert (H0 : in_range defaults)
    by (unfold in_range, defaults, DEFAULT_K, DEFAULT_THREADS;
        cbn [k num_threads]; lia).
  pose proof (@scan_invariant (List.length args) args defaults (le_n _) H0)
    as Hinv.
  assert (Hmain : main_dispatch atoi file_good args
                  = if (code =? RETURN_ERROR)%Z then Some (ExitUsage (-1))
                    else if (code =? RETURN_HELP)%Z then Some (ExitUsage 0)
                    else if (code =? RETURN_VERSION)%Z
                         then Some (ExitVersion 0)
                         else Some (Cluster s))
    by (unfold main_dispatch; now rewrite H).
  unfold Cli.processArgs in H.
  destruct (Cli.scan atoi args defaults) as [c s'|s'|]; [| |discriminate].
  - inversion H; subst. destruct Hinv as [Hc Hr].
    split; [now left|]. split; [exact Hr|]. rewrite Hmain.
    destruct Hc as [-> | ->]; cbn; split; intros; discriminate.
  - destruct (file_good (doc_fname s')) eqn:Hf; inversion H; subst.
    + split; [right; left; now split|]. split; [exact Hinv|].
      rewrite Hmain. cbn. tauto.
    + split; [right; right; now split|]. split; [exact Hinv|].
      rewrite Hmain. cbn. split; intros; discriminate.
Qed.

End WithEnvironment.

Lemma processArgs_well_formed_witness :
  Cli.processArgs decimal only_docs
    ["-k"; "3"; "--galois"; "-x"; "--help"; "-k"; "-1"]
  = Returned RETURN_SUCCESS
      (mkSettings "docs" "" 4294967295 2 RUN_GALOIS).
Proof.
  assert (Hwf : Forall well_formed
            [Flag "-k" "3"; Mode true; Flag "-x" "--help"; Flag "-k" "-1"])
    by (repeat constructor).
  exact (proj1 (@processArgs_well_formed decimal only_docs _ Hwf)).
Defined.

Lemma processArgs_help_version_witness :
  Cli.processArgs decimal only_docs ["-d"; "none"; "-h"; "-k"]
  = Returned RETURN_HELP (mkSettings "none" "" 2 2 RUN_NORMAL).
Proof.
  assert (Hwf : Forall well_formed [Flag "-d" "none"])
    by (repeat constructor).
  exact (proj1 (proj1 (@processArgs_help_version decimal only_docs
                         _ ["-k"] Hwf) "-h" (or_intror eq_refl))).
Defined.

Lemma processArgs_last_flag_witness :
  Cli.processArgs decimal only_docs ["--openmp"; "-k"] = Undefined.
Proof.
  assert (Hwf : Forall well_formed [Mode false]) by (repeat constructor).
  exact (@processArgs_last_flag decimal only_docs _ "-k" Hwf eq_refl).
Defined.

Lemma processArgs_returns_witness :
  in_range (mkSettings "docs" "" 4294967295 7 RUN_NORMAL).
Proof.
  exact (proj1 (proj2 (@processArgs_returns decimal only_docs
                         ["-k"; "-1"; "-t"; "7"] RETURN_SUCCESS _ eq_refl))).
Defined.

End CliProperties.
